(** * appcd-plugin: the external plugin host and the plugin descriptor

    A shallow embedding of [packages/appcd-plugin/src/external-plugin.js]
    (class [ExternalPlugin]) and of the [PluginInfo] constructor, followed by
    the properties of the tunnel protocol, of the stream relay and of the
    plugin lifecycle that are established on them.

    JavaScript values are modelled by the type [Js.value]; handlers are
    functions from a state and an input to a new state and the list of the
    side effects they perform, in program order.  An exception that leaves a
    handler is one of these effects, and the last one; an exception in a step
    of a promise chain rejects the chain.  Results of calls whose
    implementation lives outside this package (the peer's reply to a tunnel
    request, the plugin's own hooks, the file system) are inputs of the
    functions. *)

From Stdlib Require Import ZArith Lia.
From stdpp Require Import base option list strings pretty gmap.

Local Open Scope string_scope.
Local Open Scope Z_scope.

(** ** JavaScript values *)

Module Js.

#[local] Set Warnings "-register-all".

(** Numbers are the integers (status codes, exit codes, process ids); arrays
    and functions are not needed by the code that is modelled. *)
Inductive value : Type :=
| VUndefined
| VNull
| VBool (b : bool)
| VNum (n : Z)
| VStr (s : string)
| VObj (fields : list (string * value)).

(** [ToBoolean]: the test performed by [if (v)], [!v], [a || b], [a && b]. *)
Definition truthy (v : value) : bool :=
  match v with
  | VUndefined | VNull => false
  | VBool b => b
  | VNum n => negb (n =? 0)
  | VStr s => negb (String.eqb s EmptyString)
  | VObj _ => true
  end.

(** [a || b] and [a && b]. *)
Definition or (a b : value) : value := if truthy a then a else b.
Definition and (a b : value) : value := if truthy a then b else a.

(** [String(v)], as used by template literals and by property keys.  A
    number is written with its decimal digits, which is how JavaScript writes
    an integer whose magnitude is below [10^21]. *)
Definition to_string (v : value) : string :=
  match v with
  | VUndefined => "undefined"
  | VNull => "null"
  | VBool true => "true"
  | VBool false => "false"
  | VNum n => pretty n
  | VStr s => s
  | VObj _ => "[object Object]"
  end.

Fixpoint lookup_field (k : string) (fs : list (string * value)) : value :=
  match fs with
  | [] => VUndefined
  | (k', v) :: rest => if String.eqb k k' then v else lookup_field k rest
  end.

(** [v == null]: the two values on which a property read, a property
    assignment and a destructuring throw a [TypeError]. *)
Definition nullish (v : value) : bool :=
  match v with
  | VUndefined | VNull => true
  | _ => false
  end.

(** [v.k] for a [v] that is not [null] or [undefined]: the own property of
    an object, and [undefined] on a primitive, which has none of the
    properties the code reads.  On [null] and [undefined] the read throws:
    where the code reads a property of a value that can be one of them, the
    model tests [nullish] first. *)
Definition get (v : value) (k : string) : value :=
  match v with
  | VObj fs => lookup_field k fs
  | _ => VUndefined
  end.

(** Assignment of an own property: an existing key keeps its position. *)
Fixpoint set_field (k : string) (x : value) (fs : list (string * value))
  : list (string * value) :=
  match fs with
  | [] => [(k, x)]
  | (k', v) :: rest =>
      if String.eqb k k' then (k, x) :: rest else (k', v) :: set_field k x rest
  end.

(** [v === 'lit'] and [v === n]. *)
Definition is_str (v : value) (lit : string) : bool :=
  match v with VStr s => String.eqb s lit | _ => false end.

Definition is_num (v : value) (n : Z) : bool :=
  match v with VNum m => m =? n | _ => false end.

(** [typeof v === 'object'] *)
Definition typeof_object (v : value) : bool :=
  match v with VObj _ | VNull => true | _ => false end.

(** The own properties copied by [{ ...v }] for the values [typeof] calls
    objects. *)
Definition spread (v : value) : list (string * value) :=
  match v with VObj fs => fs | _ => [] end.

(** [new Error(msg)] and the [TypeError] raised by a property read on
    [null] or [undefined]. *)
Definition new_Error (msg : string) : value := VObj [("message", VStr msg)].

Definition new_TypeError (msg : string) : value :=
  VObj [("name", VStr "TypeError"); ("message", VStr msg)].

(** The [TypeError] of the read [v.k] on a [v] that is [null] or
    [undefined]. *)
Definition cannot_read (k : string) (v : value) : value :=
  new_TypeError ("Cannot read property '" +:+ k +:+ "' of " +:+ to_string v).

(** [/suffix$/.test(s)] for a literal suffix. *)
Definition ends_with (suffix s : string) : bool :=
  let n := String.length s in
  let m := String.length suffix in
  if (m <=? n)%nat then String.eqb (String.substring (n - m) m s) suffix else false.

(** What evaluating a piece of code comes to: a value, or a thrown error. *)
Inductive completion (A : Type) : Type :=
| Return (a : A)
| Throw (e : value).
Arguments Return {A} a.
Arguments Throw {A} e.

(** What a promise settles to. *)
Inductive outcome : Type :=
| Fulfilled (v : value)
| Rejected (e : value).

End Js.

Import Js.

(** ** The plugin descriptor: [PluginInfo] *)

Module PluginInfo.

(** The host runtime the constructor consults: the file-system predicates of
    appcd-fs, reading and parsing a manifest, the path helpers, the [semver]
    range test and the version of the running Node.js. *)
Record runtime : Type := {
  isDir : string → bool;
  isFile : string → bool;
  (** [JSON.parse(fs.readFileSync(file, 'utf8'))]; [inl m] when it throws an
      error whose message is [m] *)
  read_json : string → string + value;
  path_join : string → string → string;
  expandPath : string → string → string;
  (** [semver.satisfies(version, range)] *)
  satisfies : string → value → bool;
  process_version : string;
}.

Inductive plugin_type : Type := internal | external.

Record t : Type := {
  path : string;
  name : value;
  version : value;
  id : string;
  type : plugin_type;
  nodeVersion : value;
  pid : value;
}.

(** [pkgJson.appcd && pkgJson.appcd.type === 'internal' ? 'internal' : 'external'] *)
Definition type_of (pkgJson : value) : plugin_type :=
  let appcd := get pkgJson "appcd" in
  if truthy (Js.and appcd (VBool (is_str (get appcd "type") "internal")))
  then internal else external.

(** [pkgJson.engines && pkgJson.engines.node] *)
Definition declared_node (pkgJson : value) : value :=
  let engines := get pkgJson "engines" in
  Js.and engines (get engines "node").

(** [pkgJson.main || 'index.js'], and the file name derived from it *)
Definition main_of (pkgJson : value) : value :=
  Js.or (get pkgJson "main") (VStr "index.js").

Definition mainFile_of (pkgJson : value) : string :=
  let main := to_string (main_of pkgJson) in
  if negb (ends_with ".js" main) then main +:+ ".js" else main.

Definition version_mismatch (rt : runtime) (required : value) : value :=
  new_Error ("Internal plugin requires Node.js " +:+ to_string required
             +:+ ", but core is currently running " +:+ process_version rt).

(** [new PluginInfo(dir)] *)
Definition constructor (rt : runtime) (dir : string) : completion t :=
  if negb (isDir rt dir) then
    Throw (new_Error ("Plugin directory does not exist: " +:+ dir))
  else
    let pkgJsonFile := path_join rt dir "package.json" in
    if negb (isFile rt pkgJsonFile) then
      Throw (new_Error ("Plugin directory does not contain a package.json: " +:+ dir))
    else
      match read_json rt pkgJsonFile with
      | inl m =>
          Throw (new_Error ("Error reading plugin " +:+ pkgJsonFile +:+ ": " +:+ m))
      | inr VNull =>
          Throw (new_TypeError "Cannot read property 'name' of null")
      | inr pkgJson =>
          if negb (truthy (get pkgJson "name")) then
            Throw (new_Error ("Plugin package.json doesn't have a name: " +:+ dir))
          else
            let main := main_of pkgJson in
            let mainFile := expandPath rt dir (mainFile_of pkgJson) in
            if negb (isFile rt mainFile) then
              Throw (new_Error ("Unable to find main file: " +:+ to_string main))
            else
              let this_name := get pkgJson "name" in
              let this_version := get pkgJson "version" in
              let this_type := type_of pkgJson in
              let declared := declared_node pkgJson in
              let finish (nv : value) :=
                Return {| path := dir;
                          name := this_name;
                          version := this_version;
                          id := to_string this_name +:+ "@" +:+ to_string this_version;
                          type := this_type;
                          nodeVersion := nv;
                          pid := VNull |} in
              if negb (truthy declared) then
                finish (VStr (process_version rt))
              else
                match this_type with
                | internal =>
                    if negb (satisfies rt (process_version rt) declared) then
                      Throw (version_mismatch rt declared)
                    else finish declared
                | external => finish declared
                end
      end.

(** A sample host running Node.js v8.1.0, with one plugin directory whose
    manifest marks the plugin internal and asks for Node.js 6. *)
Definition sample_manifest : value :=
  VObj [("name", VStr "foo"); ("version", VStr "1.0.0");
        ("appcd", VObj [("type", VStr "internal")]);
        ("engines", VObj [("node", VStr "6.x")])].

Definition sample_runtime : runtime :=
  {| isDir := λ d, String.eqb d "/plugins/foo";
     isFile := λ f, String.eqb f "/plugins/foo/package.json"
                    || String.eqb f "/plugins/foo/index.js";
     read_json := λ f, if String.eqb f "/plugins/foo/package.json"
                       then inr sample_manifest else inl "ENOENT";
     path_join := λ a b, a +:+ "/" +:+ b;
     expandPath := λ a b, a +:+ "/" +:+ b;
     satisfies := λ v range, is_str range "8.x";
     process_version := "v8.1.0" |}.

(** [load()] does nothing yet; [unload()] refuses internal plugins. *)
Definition load (this : t) : completion unit := Return tt.

Definition unload (this : t) : completion unit :=
  match type this with
  | internal => Throw (new_Error "Cannot unload internal plugins")
  | external => Return tt
  end.

(** The same host with another [semver] range test. *)
Definition with_satisfies (sat : string → value → bool) (rt : runtime) : runtime :=
  {| isDir := isDir rt; isFile := isFile rt; read_json := read_json rt;
     path_join := path_join rt; expandPath := expandPath rt;
     satisfies := sat; process_version := process_version rt |}.

(** A second sample host, whose plugin asks for the Node.js that is
    running. *)
Definition loadable_manifest : value :=
  VObj [("name", VStr "foo"); ("version", VStr "1.0.0"); ("main", VStr "lib/main");
        ("appcd", VObj [("type", VStr "internal")]);
        ("engines", VObj [("node", VStr "8.x")])].

Definition loadable_runtime : runtime :=
  {| isDir := λ d, String.eqb d "/plugins/foo";
     isFile := λ f, String.eqb f "/plugins/foo/package.json"
                    || String.eqb f "/plugins/foo/lib/main.js";
     read_json := λ f, if String.eqb f "/plugins/foo/package.json"
                       then inr loadable_manifest else inl "ENOENT";
     path_join := λ a b, a +:+ "/" +:+ b;
     expandPath := λ a b, a +:+ "/" +:+ b;
     satisfies := λ v range, is_str range "8.x";
     process_version := "v8.1.0" |}.

End PluginInfo.


(** ** The external plugin: [ExternalPlugin] *)

Module ExternalPlugin.

(** Modelled from the spec: the [states] table exported by plugin-base, a
    module this development has no source for; the spec lists the four
    lifecycle states. *)
Inductive lifecycle : Type := STOPPED | STARTING | STARTED | STOPPING.

(** Handles of objects that are only passed around: a response stream, the
    tunnel to the peer process, a file-system watcher. *)
Definition stream : Type := nat.

Record tunnel_handle : Type := { proc : Z }.

Record fswatcher : Type := { watched : string }.

(** [this.info] *)
Record info_t : Type := {
  state : lifecycle;
  pid : value;
  exitCode : value;
  error : value;
  stack : value;
  stats : value;
}.

(** The plugin module; [deactivate] is present when
    [typeof this.module.deactivate === 'function'] and then gives what a call
    of the hook settles to. *)
Record plugin_module : Type := { deactivate : option outcome }.

(** *** The stream registry

    [this.streams] is a plain object, [{}], used as a map from subscription
    ids to streams.  Its own properties are the registrations.  A key that is
    not an own property is looked up in the prototype of the object:
    [Object.prototype], until an assignment to the key [__proto__], which
    [Object.prototype] defines as an accessor, puts the assigned stream in its
    place. *)
Inductive prototype : Type :=
| ObjectPrototype
| StreamPrototype (r : stream).

Record registry : Type := {
  own : gmap string stream;
  proto : prototype;
}.

(** The data properties of [Object.prototype], all of them functions. *)
Definition Object_prototype_members : list string :=
  ["constructor"; "__defineGetter__"; "__defineSetter__"; "hasOwnProperty";
   "__lookupGetter__"; "__lookupSetter__"; "isPrototypeOf";
   "propertyIsEnumerable"; "toString"; "valueOf"; "toLocaleString"].

(** What [this.streams[k]] evaluates to. *)
Inductive slot : Type :=
(** an own property: the stream registered under [k] *)
| Registered (r : stream)
(** [k] is [__proto__]: the prototype itself *)
| ThePrototype (p : prototype)
(** a function inherited from [Object.prototype] *)
| ObjectMember
(** the property [k] of the stream [r] that has become the prototype *)
| StreamMember (r : stream) (k : string)
(** [undefined] *)
| Unset.

Definition lookup_stream (reg : registry) (k : string) : slot :=
  match own reg !! k with
  | Some r => Registered r
  | None =>
      if String.eqb k "__proto__" then ThePrototype (proto reg)
      else
        match proto reg with
        | ObjectPrototype =>
            if bool_decide (k ∈ Object_prototype_members) then ObjectMember else Unset
        | StreamPrototype r => StreamMember r k
        end
  end.

(** What the assignment [o[k] = v] does when [k] is not an own property of
    [o] and is found in a stream that is the prototype of [o]: it defines an
    own property of [o] when the stream has no such property or a writable
    one; it is taken by a setter of the stream, which leaves [o] without the
    property; or it is refused with a [TypeError], the code of a class being
    strict, when the stream makes the property read-only.  Which of these
    depends on the stream's class, which is not part of this package. *)
Inductive put : Type := Defines | Swallows | Refuses.

(** [this.streams[k] = r]; [puts] answers for the properties of a stream that
    has become the prototype. *)
Definition assign_stream (puts : stream → string → put) (k : string) (r : stream)
  (reg : registry) : completion registry :=
  let defined := {| own := <[k := r]> (own reg); proto := proto reg |} in
  match own reg !! k with
  | Some _ => Return defined
  | None =>
      if String.eqb k "__proto__" then
        Return {| own := own reg; proto := StreamPrototype r |}
      else
        match proto reg with
        | ObjectPrototype => Return defined
        | StreamPrototype p =>
            match puts p k with
            | Defines => Return defined
            | Swallows => Return reg
            | Refuses =>
                Throw (new_TypeError ("Cannot assign to read only property '"
                                      +:+ k +:+ "' of object"))
            end
        end
  end.

(** [delete this.streams[k]]: only an own property is removed. *)
Definition delete_stream (k : string) (reg : registry) : registry :=
  {| own := delete k (own reg); proto := proto reg |}.

(** The fields of an [ExternalPlugin] instance. *)
Record t : Type := {
  streams : registry;
  tunnel : option tunnel_handle;
  watchers : gmap string fswatcher;
  info : info_t;
  config : value;
  configSubscriptionId : value;
  module : option plugin_module;
}.

Definition with_streams (f : registry → registry) (this : t) : t :=
  {| streams := f (streams this); tunnel := tunnel this; watchers := watchers this;
     info := info this; config := config this;
     configSubscriptionId := configSubscriptionId this; module := module this |}.

Definition with_tunnel (tn : option tunnel_handle) (this : t) : t :=
  {| streams := streams this; tunnel := tn; watchers := watchers this;
     info := info this; config := config this;
     configSubscriptionId := configSubscriptionId this; module := module this |}.

Definition with_watchers (ws : gmap string fswatcher) (this : t) : t :=
  {| streams := streams this; tunnel := tunnel this; watchers := ws;
     info := info this; config := config this;
     configSubscriptionId := configSubscriptionId this; module := module this |}.

Definition with_info (f : info_t → info_t) (this : t) : t :=
  {| streams := streams this; tunnel := tunnel this; watchers := watchers this;
     info := f (info this); config := config this;
     configSubscriptionId := configSubscriptionId this; module := module this |}.

Definition with_config (cfg sid : value) (this : t) : t :=
  {| streams := streams this; tunnel := tunnel this; watchers := watchers this;
     info := info this; config := cfg;
     configSubscriptionId := sid; module := module this |}.

Definition set_state (s : lifecycle) (i : info_t) : info_t :=
  {| state := s; pid := pid i; exitCode := exitCode i; error := error i;
     stack := stack i; stats := stats i |}.

Definition set_pid (v : value) (i : info_t) : info_t :=
  {| state := state i; pid := v; exitCode := exitCode i; error := error i;
     stack := stack i; stats := stats i |}.

Definition set_exitCode (v : value) (i : info_t) : info_t :=
  {| state := state i; pid := pid i; exitCode := v; error := error i;
     stack := stack i; stats := stats i |}.

Definition set_error (v : value) (i : info_t) : info_t :=
  {| state := state i; pid := pid i; exitCode := exitCode i; error := v;
     stack := stack i; stats := stats i |}.

Definition set_stack (v : value) (i : info_t) : info_t :=
  {| state := state i; pid := pid i; exitCode := exitCode i; error := error i;
     stack := v; stats := stats i |}.

Definition set_stats (v : value) (i : info_t) : info_t :=
  {| state := state i; pid := pid i; exitCode := exitCode i; error := error i;
     stack := stack i; stats := v |}.

(** The constructor: no stream, no tunnel, no watcher. *)
Definition new (i : info_t) (m : option plugin_module) : t :=
  {| streams := {| own := ∅; proto := ObjectPrototype |};
     tunnel := None; watchers := ∅; info := i;
     config := VUndefined; configSubscriptionId := VUndefined; module := m |}.

(** *** Side effects

    Log lines are recorded by level and leading argument; styling and the
    elapsed time appended to some of them are left out. *)
Inductive level : Type := LLog | LWarn | LError.

Inductive effect : Type :=
| Logged (l : level) (v : value)
(** [send(m)], the reply callback the tunnel hands to its handler *)
| Reply (m : value)
(** [this.send(m)]: the call of a method [send] of the plugin instance, which
    the class does not define *)
| InstanceSend (m : value)
(** [this.tunnel.send(m)] and [this.tunnel.emit(m)] *)
| TunnelSend (m : value)
| TunnelEmit (m : value)
(** [Dispatcher.call(path, data)] / [this.dispatcher.call(path, data)] *)
| DispatcherCall (path data : value)
(** [appcdLogger.dispatch(m)] *)
| LogDispatch (m : value)
(** [stream.end()] and [watcher.close()] *)
| StreamEnd (r : stream)
| WatcherClose (dir : string)
(** [this.streams[k].end()] where [this.streams[k]] is the property [k] of
    the stream [r] that is the prototype of the registry: made if that
    property is truthy, and then a [TypeError] unless it has an [end] *)
| EndMember (r : stream) (k : string)
(** [this.setState(s, err)]: the transition, with the error captured for it *)
| SetState (s : lifecycle) (err : option value)
(** [this.module.deactivate()] and [this.activate()] *)
| ModuleDeactivate
| Activate
(** [this.agent.pollInterval = Math.max(1000, interval)] *)
| PollInterval (interval : value)
(** [process.exit(code)] *)
| ProcessExit (code : Z)
(** the exception [e] leaves the handler at this point *)
| Thrown (e : value).

(** The promise made by [startParent], settled by [resolve] and [reject];
    only the first settlement counts. *)
Inductive promise : Type := Pending | Settled (o : outcome).

Definition resolve (p : promise) : promise :=
  match p with Pending => Settled (Fulfilled VUndefined) | _ => p end.

Definition reject (e : value) (p : promise) : promise :=
  match p with Pending => Settled (Rejected e) | _ => p end.

(** Modelled from the spec: the error of the spec's taxonomy for a child
    that has terminated, [ProcessExitError], whose code tells a crash from an
    expected exit.  It belongs to plugin-base, a module this development has
    no source for. *)
Definition ProcessExitError (code : value) : value :=
  VObj [("name", VStr "ProcessExitError"); ("code", code)].

(** The status the child exits with when its activation fails:
    [process.exit(6)] in [startChild]. *)
Definition activation_failure_code : Z := 6.

(** Modelled from the spec: [setState] of plugin-base, a module this
    development has no source for.  It moves the lifecycle to the given
    state, and the transition carries the error captured for it: the error
    the caller gives, if any.  By the spec (lifecycle transitions, exit codes
    and propagation policy) a child that exits while the plugin is [STARTED],
    that is without a prior [stop()], with a code that is neither 0 nor the
    code reserved for activation failures has crashed, and the
    [ProcessExitError] is recorded as the captured error of the transition to
    [STOPPED]; the exit handler has stored the code in [info.exitCode]
    before the call. *)
Definition setState (s : lifecycle) (err : option value) (this : t) : t * list effect :=
  let code := exitCode (info this) in
  let captured :=
    match err, s, state (info this) with
    | Some e, _, _ => Some e
    | None, STOPPED, STARTED =>
        if truthy code && negb (is_num code activation_failure_code)
        then Some (ProcessExitError code) else None
    | None, _, _ => None
    end in
  (with_info (set_state s) this, [SetState s captured]).

(** Modelled from the spec: the success code of appcd-response's [codes]
    table and its [Response] wrapper, which this development has no source
    for; the spec only says that success is acknowledged. *)
Definition codes_OK : value := VStr "OK".

Definition new_Response (code : value) : value := VObj [("code", code)].

(** Modelled from the spec: [new PluginError(message)], of plugin-error,
    which this development has no source for; the error carries the message
    it is built from. *)
Definition new_PluginError (message : value) : value :=
  VObj [("name", VStr "PluginError"); ("message", message)].

(** *** [globals.appcd.call] and [dispatch] *)

(** [this.globals.appcd.call(path, data)]; [reply] is what the peer's answer
    to the tunnel request settles to. *)
Definition appcd_call (this : t) (path data : value) (reply : outcome)
  : outcome * list effect :=
  match tunnel this with
  | None => (Rejected (new_Error "Tunnel not initialized!"), [])
  | Some _ => (reply, [TunnelSend (VObj [("path", path); ("data", data)])])
  end.

(** A dispatcher context. *)
Record ctx_t : Type := {
  ctx_path : value;
  ctx_request : value;
  ctx_type : value;
  ctx_status : value;
  ctx_response : value;
}.

(** What the promise returned by [dispatch] comes to: the result of
    [next()], the context itself, or a rejection: of the tunnel request, or
    by an exception in the handler of its reply. *)
Inductive dispatched : Type :=
| Next
| Context (ctx : ctx_t)
| Failed (e : value).

(** The [TypeError] of [const { status } = res] on a [res] that is [null] or
    [undefined]. *)
Definition cannot_destructure (res : value) : value :=
  new_TypeError ("Cannot destructure property `status` of 'undefined' or 'null'.").

Definition dispatch (this : t) (ctx : ctx_t) (reply : outcome)
  : dispatched * list effect :=
  match tunnel this with
  | None => (Next, [])
  | Some _ =>
      let request :=
        [Logged LLog (VStr "Sending request: %s");
         TunnelSend (VObj [("path", ctx_path ctx); ("data", ctx_request ctx)])] in
      match reply with
      | Rejected e => (Failed e, request)
      | Fulfilled res =>
          if nullish res then (Failed (cannot_destructure res), request)
          else
            let status := get res "status" in
            let logged := (request ++ [Logged LLog (VStr "Plugin dispatcher:")])%list in
            if is_num status 404 then (Next, logged)
            else
              (Context {| ctx_path := ctx_path ctx; ctx_request := ctx_request ctx;
                          ctx_type := ctx_type ctx;
                          ctx_status := status;
                          ctx_response := get res "response" |},
               logged)
      end
  end.

(** [onStop] *)
Definition onStop : list effect := [TunnelSend (VObj [("type", VStr "deactivate")])].

(** *** The stream relay

    A dispatcher response that is a [Readable] is relayed message by message.
    The relay is the three listeners put on the stream together with the
    variable [sid] they share; [end] and [error] are registered with [once],
    so each of them runs for the first such event only.

    A listener that throws is left at that point: what it did before stays
    done, and the exception is recorded as the effect [Thrown].  What the
    runtime does with the exception is not part of this package; the
    functions that run a list of events hand every event to the listeners. *)
Inductive stream_event : Type :=
| Data (message : value)
| End_
| Error (err : value).

Record relay : Type := {
  response : stream;
  sid : value;
  end_armed : bool;
  error_armed : bool;
}.

Definition new_relay (r : stream) : relay :=
  {| response := r; sid := VUndefined; end_armed := true; error_armed := true |}.

Definition with_sid (v : value) (rl : relay) : relay :=
  {| response := response rl; sid := v; end_armed := end_armed rl;
     error_armed := error_armed rl |}.

Definition end_fired (rl : relay) : relay :=
  {| response := response rl; sid := sid rl; end_armed := false;
     error_armed := error_armed rl |}.

Definition error_fired (rl : relay) : relay :=
  {| response := response rl; sid := sid rl; end_armed := end_armed rl;
     error_armed := false |}.

(** [{ sid, type: 'fin' }] *)
Definition fin (sid : value) : value := VObj [("sid", sid); ("type", VStr "fin")].

(** [{ message: err.message || err, stack: err.stack,
       status: err.status || 500, type: 'error' }], for an [err] that is not
    [null] or [undefined]. *)
Definition error_message (err : value) : value :=
  VObj [("message", Js.or (get err "message") err);
        ("stack", get err "stack");
        ("status", Js.or (get err "status") (VNum 500));
        ("type", VStr "error")].

(** The body of the two [error] listeners after the registry is cleaned up:
    the error is logged, the message is built, which throws on an error that
    is [null] or [undefined], and given to [this.send]. *)
Definition on_stream_error (err : value) : list effect :=
  [Logged LError (VStr "Response stream error:");
   Logged LError err;
   if nullish err then Thrown (cannot_read "message" err)
   else InstanceSend (error_message err)].

(** The relay of [startParent]: one event of the response stream.  The
    [data] listener reads [message.type] first; on an item of type
    [subscribe] it sets [sid], then registers the stream, then forwards the
    item. *)
Definition parent_relay (puts : stream → string → put) (this : t) (rl : relay)
  (ev : stream_event) : t * relay * list effect :=
  match ev with
  | Data message =>
      if nullish message then (this, rl, [Thrown (cannot_read "type" message)])
      else if is_str (get message "type") "subscribe" then
        let sid := get message "sid" in
        match assign_stream puts (to_string sid) (response rl) (streams this) with
        | Return registered =>
            (with_streams (λ _, registered) this, with_sid sid rl, [Reply message])
        | Throw e => (this, with_sid sid rl, [Thrown e])
        end
      else (this, rl, [Reply message])
  | End_ =>
      if end_armed rl then
        (with_streams (delete_stream (to_string (sid rl))) this,
         end_fired rl,
         if truthy (sid rl) then [Reply (fin (sid rl))] else [])
      else (this, rl, [])
  | Error err =>
      if error_armed rl then
        (with_streams (delete_stream (to_string (sid rl))) this,
         error_fired rl,
         on_stream_error err)
      else (this, rl, [])
  end.

(** What the relay of [startChild] sends for a data item while it holds
    [sid]: the item with its [type] defaulted, or wrapped when it is not an
    object.  The read of [message.type] comes first and throws on an item
    that is [null] or [undefined]. *)
Definition child_forward (sid message : value) : completion value :=
  if nullish message then Throw (cannot_read "type" message)
  else
    let type := Js.or (get message "type")
                      (if truthy sid then VStr "event" else VUndefined) in
    if typeof_object message then Return (VObj (set_field "type" type (spread message)))
    else Return (VObj [("message", message); ("type", type)]).

(** The relay of [startChild]; it keeps no stream registry. *)
Definition child_relay (rl : relay) (ev : stream_event) : relay * list effect :=
  match ev with
  | Data message =>
      if nullish message then (rl, [Thrown (cannot_read "type" message)])
      else
        let rl' := if is_str (get message "type") "subscribe"
                   then with_sid (get message "sid") rl else rl in
        match child_forward (sid rl') message with
        | Return res => (rl', [Reply res])
        | Throw e => (rl', [Thrown e])
        end
  | End_ =>
      if end_armed rl then
        (end_fired rl, if truthy (sid rl) then [Reply (fin (sid rl))] else [])
      else (rl, [])
  | Error err =>
      if error_armed rl then (error_fired rl, on_stream_error err)
      else (rl, [])
  end.

(** The events of a stream, in the order they are emitted. *)
Fixpoint parent_relay_run (puts : stream → string → put) (this : t) (rl : relay)
  (evs : list stream_event) : t * relay * list effect :=
  match evs with
  | [] => (this, rl, [])
  | ev :: rest =>
      let '(this1, rl1, out1) := parent_relay puts this rl ev in
      let '(this2, rl2, out2) := parent_relay_run puts this1 rl1 rest in
      (this2, rl2, (out1 ++ out2)%list)
  end.

Fixpoint child_relay_run (rl : relay) (evs : list stream_event)
  : relay * list effect :=
  match evs with
  | [] => (rl, [])
  | ev :: rest =>
      let '(rl1, out1) := child_relay rl ev in
      let '(rl2, out2) := child_relay_run rl1 rest in
      (rl2, (out1 ++ out2)%list)
  end.



(** The [.catch] of the dispatcher call made by the parent: the same message
    as in the [error] listeners, given to the reply callback [send]. *)
Definition on_dispatch_failed (err : value) : list effect :=
  if nullish err then [Thrown (cannot_read "message" err)]
  else [Reply (error_message err)].

(** *** The parent side: messages of the child and events of its process *)

(** An [unsubscribe] message:
    [if (this.streams[req.sid]) { this.streams[req.sid].end();
                                  delete this.streams[req.sid]; }].
    A registered stream is ended and forgotten.  A function inherited from
    [Object.prototype], and [Object.prototype] itself, are truthy and have no
    [end]: the call throws.  A stream that has become the prototype is found
    under [__proto__] and ended, and the [delete] finds no own property. *)
Definition on_unsubscribe (this : t) (req : value) : t * list effect :=
  let key := to_string (get req "sid") in
  match lookup_stream (streams this) key with
  | Registered r => (with_streams (delete_stream key) this, [StreamEnd r])
  | ThePrototype (StreamPrototype r) => (this, [StreamEnd r])
  | ThePrototype ObjectPrototype | ObjectMember =>
      (this, [Thrown (new_TypeError "this.streams[req.sid].end is not a function")])
  | StreamMember r k => (this, [EndMember r k])
  | Unset => (this, [])
  end.

(** The handler given to the tunnel by [startParent]: the [switch] on
    [req.type].  [started] is the promise [startParent] is waiting on and
    [logger_id] the identifier of the parent's logger.  The call of the
    dispatcher made for a request of the child is answered later, by
    [on_dispatched], with the relay [parent_relay] for a stream, or by
    [on_dispatch_failed]. *)
Definition parent_on_message (logger_id : value) (this : t) (started : promise)
  (req : value) : t * promise * list effect :=
  if nullish req then (this, started, [Thrown (cannot_read "type" req)])
  else
    let type := get req "type" in
    if is_str type "activated" then
      (this, resolve started, [Logged LLog (VStr "External plugin is activated")])
    else if is_str type "activation_error" then
      (with_info (λ i, set_stack (get req "stack") (set_error (get req "message") i)) this,
       started, [])
    else if is_str type "log" then
      match get req "message" with
      | VObj fields =>
          (this, started, [LogDispatch (VObj (set_field "id" logger_id fields))])
      | message =>
          (this, started,
           [Thrown (new_TypeError ("Cannot create property 'id' on "
                                   +:+ to_string message))])
      end
    else if is_str type "stats" then
      (with_info (set_stats (get req "stats")) this, started, [])
    else if is_str type "unsubscribe" then
      let '(this', out) := on_unsubscribe this req in (this', started, out)
    else if truthy (get req "id") then
      let message := get req "message" in
      if nullish message then (this, started, [Thrown (cannot_read "path" message)])
      else (this, started, [DispatcherCall (get message "path") (get message "data")])
    else (this, started, []).

(** After a spawn, the answer to the [autoReload] query decides whether the
    directories of the plugin get a watcher. *)
Definition wire_watchers (this : t) (reply : outcome) (directories : list string) : t :=
  let autoReload :=
    match reply with
    | Fulfilled ctx => get ctx "response"
    | Rejected _ => VBool true
    end in
  if truthy autoReload then
    with_watchers
      (foldl (λ ws dir, <[dir := {| watched := dir |}]> ws) (watchers this) directories)
      this
  else this.

(** The [close()] calls made on the watchers of the instance. *)
Definition close_watchers (ws : gmap string fswatcher) : list effect :=
  (λ entry, WatcherClose entry.1) <$> map_to_list ws.

(** The process has exited: [case 'exit']. *)
Definition on_exit (this : t) (started : promise) (data : value)
  : t * promise * list effect :=
  let code := get data "code" in
  let state0 := state (info this) in
  let closed := close_watchers (watchers this) in
  let this1 :=
    with_watchers ∅ (with_info (set_pid VNull) (with_tunnel None this)) in
  let log := Logged LLog (VStr "Plugin host exited: %s") in
  if truthy code then
    let this2 := with_info (set_exitCode code) this1 in
    match state0 with
    | STARTING =>
        let this3 :=
          if negb (truthy (error (info this2))) then
            with_info
              (set_error (VStr ("Failed to activate plugin (code "
                                +:+ to_string code +:+ ")")))
              this2
          else this2 in
        let err0 := new_PluginError (error (info this3)) in
        let err :=
          if truthy (stack (info this3))
          then VObj (set_field "stack" (stack (info this3)) (spread err0))
          else err0 in
        let '(this4, out) := setState STOPPED (Some err) this3 in
        (this4, reject err started, (log :: closed ++ out)%list)
    | _ =>
        let '(this3, out) := setState STOPPED None this2 in
        (this3, started, (log :: closed ++ out)%list)
    end
  else
    let '(this2, out) := setState STOPPED None this1 in
    (this2, started, (log :: closed ++ out)%list).

(** The listener on the events of the spawned process; the scan of [stderr]
    for the debugger banner only writes to the log. *)
Definition on_process_data (this : t) (started : promise) (data : value)
  : t * promise * list effect :=
  if nullish data then (this, started, [Thrown (cannot_read "type" data)])
  else
    let type := get data "type" in
    if is_str type "spawn" then
      (with_info (λ i, set_exitCode VNull (set_pid (get data "pid") i)) this,
       started,
       [DispatcherCall (VStr "/appcd/config/plugins/autoReload") VUndefined])
    else if is_str type "exit" then on_exit this started data
    else (this, started, []).

(** The [.catch] closing the chain of [startParent]: what [onStart] comes to
    once the promise is settled. *)
Definition startParent_settled (this : t) (started : promise)
  : option (t * outcome * list effect) :=
  match started with
  | Pending => None
  | Settled (Fulfilled v) => Some (this, Fulfilled v, [])
  | Settled (Rejected err) =>
      let '(this', out) := setState STOPPED (Some err) this in
      Some (this', Rejected err,
            Logged LError (VStr "Failed to activate plugin: %s") :: out)
  end.

(** *** The child side *)

(** A promise chain: the effects performed so far and what the chain has
    settled to.  An exception thrown by a step rejects the chain. *)
Definition chain : Type := list effect * outcome.

Definition then_ (c : chain) (k : value → chain) : chain :=
  match c with
  | (out, Fulfilled v) => let '(out', o) := k v in ((out ++ out')%list, o)
  | (out, Rejected e) => (out, Rejected e)
  end.

Definition catch_ (c : chain) (k : value → chain) : chain :=
  match c with
  | (out, Fulfilled v) => (out, Fulfilled v)
  | (out, Rejected e) => let '(out', o) := k e in ((out ++ out')%list, o)
  end.

Definition resolved : chain := ([], Fulfilled VUndefined).

Infix ">>=" := then_ (at level 50, left associativity).

(** The [async] step that unsubscribes from the configuration: the [await]
    sits in a [try], so the step is fulfilled whatever [reply] is. *)
Definition unsubscribe_config (this : t) (reply : outcome) : chain :=
  if truthy (configSubscriptionId this) then
    let '(res, sent) :=
      appcd_call this (VStr "/appcd/config")
        (VObj [("sid", configSubscriptionId this); ("type", VStr "unsubscribe")])
        reply in
    match res with
    | Fulfilled _ => (sent, Fulfilled VUndefined)
    | Rejected err =>
        ((sent ++ [Logged LWarn (VStr "Failed to unsubscribe from config");
                   Logged LWarn err])%list,
         Fulfilled VUndefined)
    end
  else resolved.

(** The call of the hook of the plugin module, when there is one. *)
Definition call_deactivate (this : t) : chain :=
  match module this with
  | Some {| deactivate := Some settled |} => ([ModuleDeactivate], settled)
  | _ => resolved
  end.

(** A [deactivate] message; [reply] is the peer's answer to the unsubscribe
    request. *)
Definition on_deactivate (this : t) (reply : outcome) : chain :=
  resolved
  >>= (λ _, unsubscribe_config this reply)
  >>= (λ _, call_deactivate this)
  >>= (λ _, ([Reply (new_Response codes_OK); ProcessExit 0], Fulfilled VUndefined)).


(** The listener on the configuration stream.  An [event] is stored first;
    then [this.config.server] is read, which throws when the event carried no
    message; then the poll interval of the agent is set if the configuration
    has one; the boolean tells whether the end of the listener is reached,
    where the promise the chain waits on is resolved. *)
Definition on_config_data (this : t) (response : value) : t * list effect * bool :=
  if nullish response then (this, [Thrown (cannot_read "type" response)], false)
  else if is_str (get response "type") "event" then
    let this1 := with_config (get response "message") (get response "sid") this in
    if nullish (config this1) then
      (this1, [Thrown (cannot_read "server" (config this1))], false)
    else
      let server := get (config this1) "server" in
      let interval := Js.and server (get server "agentPollInterval") in
      (this1, if truthy interval then [PollInterval interval] else [], true)
  else (this, [], false).

Fixpoint on_config_events (this : t) (initialized : bool) (events : list value)
  : t * list effect * bool :=
  match events with
  | [] => (this, [], initialized)
  | ev :: rest =>
      let '(this1, out1, reached) := on_config_data this ev in
      let '(this2, out2, initialized2) :=
        on_config_events this1 (initialized || reached) rest in
      (this2, (out1 ++ out2)%list, initialized2)
  end.

(** How the subscription to the configuration lets the chain of [startChild]
    go on: to the activation, not at all while no configuration has arrived,
    or to the final [catch] with an error. *)
Inductive awaited : Type :=
| Proceeds
| Waits
| Fails (err : value).

(** The subscription to the configuration that opens [startChild].  A
    rejected request is logged and the chain goes on.  A fulfilled one is
    destructured, [({ response }) => ...], which throws on a reply that is
    [null] or [undefined], and [response.on] is called, which throws unless
    the response is a stream: [events] holds the messages the response emits
    when it is a stream, and is [None] when it is not.  These exceptions
    reject the chain; the second argument of the [then] does not handle
    them. *)
Definition subscribe_config (this : t) (reply : outcome) (events : option (list value))
  : t * list effect * awaited :=
  let '(res, sent) :=
    appcd_call this (VStr "/appcd/config") (VObj [("type", VStr "subscribe")]) reply in
  match res with
  | Rejected err =>
      (this,
       (sent ++ [Logged LWarn (VStr "Failed to subscribe to config"); Logged LWarn err])%list,
       Proceeds)
  | Fulfilled v =>
      if nullish v then
        (this, sent,
         Fails (new_TypeError "Cannot destructure property `response` of 'undefined' or 'null'."))
      else
        match events with
        | None => (this, sent, Fails (new_TypeError "response.on is not a function"))
        | Some evs =>
            let '(this', out, initialized) := on_config_events this false evs in
            (this', (sent ++ out)%list, if initialized then Proceeds else Waits)
        end
  end.

(** [{ message: err.message, stack: err.stack, type: 'activation_error' }],
    for an [err] that is not [null] or [undefined]. *)
Definition activation_error (err : value) : value :=
  VObj [("message", get err "message");
        ("stack", get err "stack");
        ("type", VStr "activation_error")].

(** The [catch] that closes the chain of [startChild].  The error is logged;
    building the event reads [err.message], which throws on an error that is
    [null] or [undefined]: the event is then not emitted, the process does
    not exit, and the chain is rejected. *)
Definition activation_failed (err : value) : chain :=
  if nullish err then ([Logged LError err], Rejected (cannot_read "message" err))
  else
    ([Logged LError err; TunnelEmit (activation_error err);
      ProcessExit activation_failure_code],
     Fulfilled VUndefined).

(** The end of the chain of [startChild]; [activated] is what
    [this.activate()] settles to. *)
Definition activation (activated : outcome) : chain :=
  catch_
    (([Activate], activated)
     >>= (λ _, ([TunnelEmit (VObj [("type", VStr "activated")])], Fulfilled VUndefined)))
    activation_failed.

(** [startChild]: the tunnel to the parent is made around the process's own
    IPC endpoint [self], the configuration subscribed to, the plugin
    activated. *)
Definition startChild (this : t) (self : tunnel_handle) (reply : outcome)
  (events : option (list value)) (activated : outcome) : t * list effect :=
  let this1 := with_tunnel (Some self) this in
  let '(this2, out, next) := subscribe_config this1 reply events in
  match next with
  | Proceeds => (this2, (out ++ (activation activated).1)%list)
  | Waits => (this2, out)
  | Fails err => (this2, (out ++ (activation_failed err).1)%list)
  end.


(** *** Observations on the effects of a handler *)

Definition replies (out : list effect) : list value :=
  omap (λ e, match e with Reply m => Some m | _ => None end) out.

Definition instance_sends (out : list effect) : list value :=
  omap (λ e, match e with InstanceSend m => Some m | _ => None end) out.

Definition tunnel_sends (out : list effect) : list value :=
  omap (λ e, match e with TunnelSend m => Some m | _ => None end) out.

Definition tunnel_emits (out : list effect) : list value :=
  omap (λ e, match e with TunnelEmit m => Some m | _ => None end) out.

Definition exits (out : list effect) : list Z :=
  omap (λ e, match e with ProcessExit c => Some c | _ => None end) out.

Definition transitions (out : list effect) : list (lifecycle * option value) :=
  omap (λ e, match e with SetState s err => Some (s, err) | _ => None end) out.

Definition closed_dirs (out : list effect) : list string :=
  omap (λ e, match e with WatcherClose d => Some d | _ => None end) out.

Definition thrown (out : list effect) : list value :=
  omap (λ e, match e with Thrown e => Some e | _ => None end) out.

(** [message.type === 'subscribe'] *)
Definition is_subscribe (m : value) : bool := is_str (get m "type") "subscribe".

(** The subscription id announced by the data items [items]: the [sid] of the
    last item of type [subscribe], when there is one. *)
Definition captured (items : list value) : value :=
  match last (filter (λ m, is_subscribe m = true) items) with
  | Some m => get m "sid"
  | None => VUndefined
  end.

(** The variable [sid] of a relay after the data items [items], when it held
    [sid0] before them. *)
Definition sid_after (sid0 : value) (items : list value) : value :=
  foldl (λ held m, if is_subscribe m then get m "sid" else held) sid0 items.

(** A relay sends a [fin] after a stream error on the events [evs]: some
    [error] event is followed by events in answer to which a [fin] is sent.
    [run] gives the relay after some events, and what it sends for further
    ones. *)
Definition fin_after_error {R : Type} (run : R → list stream_event → R * list effect)
  (start : R) (evs : list stream_event) : Prop :=
  ∃ before err after s,
    evs = (before ++ Error err :: after)%list ∧
    Reply (fin s) ∈ (run (run start (before ++ [Error err])%list).1 after).2.

(** The two relays as such runs. *)
Definition parent_run_relay (puts : stream → string → put)
  (start : t * relay) (evs : list stream_event) : (t * relay) * list effect :=
  parent_relay_run puts start.1 start.2 evs.

(** The promise of [startParent] has been rejected. *)
Definition start_rejected (started : promise) : Prop :=
  ∃ err, started = Settled (Rejected err).

(** An item, or an error, on which a property can be read. *)
Definition defined (v : value) : Prop := nullish v = false.

(** No assignment through a stream that has become the prototype of the
    registry is refused. *)
Definition never_refuses (puts : stream → string → put) : Prop :=
  ∀ p k, puts p k ≠ Refuses.

(** A registry key that names no member of [Object.prototype]. *)
Definition ordinary (k : string) : Prop :=
  k ∉ "__proto__" :: Object_prototype_members.

(** *** Sample states and messages *)

Definition starting_info : info_t :=
  {| state := STARTING; pid := VNum 4242; exitCode := VNull; error := VNull;
     stack := VNull; stats := VUndefined |}.

Definition started_info : info_t := set_state STARTED starting_info.

(** A parent whose child has been spawned and is being activated, and the
    same parent once the plugin is started and its two directories are
    watched. *)
Definition starting_parent : t :=
  with_tunnel (Some {| proc := 4242 |}) (new starting_info None).


(** A child with a configuration subscription and a plugin module whose hook
    settles to [hook]. *)
Definition running_child (hook : option outcome) : t :=
  with_config (VObj []) (VStr "cfg-1")
    (with_tunnel (Some {| proc := 1 |})
       (new started_info (Some {| deactivate := hook |}))).

Definition subscribe_msg : value :=
  VObj [("type", VStr "subscribe"); ("sid", VStr "s1")].

Definition event_msg : value :=
  VObj [("type", VStr "event"); ("sid", VStr "s1"); ("message", VNum 1)].

Definition boom : value := VObj [("message", VStr "boom"); ("stack", VStr "at x")].

Definition exit_data (code : value) : value :=
  VObj [("type", VStr "exit"); ("code", code)].


(** Streams that have no property of their own under any key, so that an
    assignment through one of them as prototype always defines an own
    property; and streams whose class makes the property [readableLength]
    read-only, as the [Readable] of later Node.js versions does. *)
Definition plain_puts : stream → string → put := λ _ _, Defines.

Definition readonly_puts : stream → string → put :=
  λ _ k, if String.eqb k "readableLength" then Refuses else Defines.

(** *** Further parts of the class *)

(** [onStop] on an instance: [this.tunnel.send] reads a property of
    [this.tunnel], which throws while the tunnel is [null]. *)
Definition onStop_on (this : t) : completion (list effect) :=
  match tunnel this with
  | None => Throw (new_TypeError "Cannot read property 'send' of null")
  | Some _ => Return onStop
  end.

(** What reaches the parent once the child is spawned: a message of the
    child over the tunnel, or an event of its process. *)
Inductive parent_input : Type :=
| FromChild (req : value)
| FromProcess (data : value).

Definition parent_step (logger_id : value) (this : t) (started : promise)
  (input : parent_input) : t * promise * list effect :=
  match input with
  | FromChild req => parent_on_message logger_id this started req
  | FromProcess data => on_process_data this started data
  end.

Fixpoint parent_run (logger_id : value) (this : t) (started : promise)
  (inputs : list parent_input) : t * promise * list effect :=
  match inputs with
  | [] => (this, started, [])
  | input :: rest =>
      let '(this1, started1, out1) := parent_step logger_id this started input in
      let '(this2, started2, out2) := parent_run logger_id this1 started1 rest in
      (this2, started2, (out1 ++ out2)%list)
  end.

(** The data items among the events of a stream. *)
Definition data_items (evs : list stream_event) : list value :=
  omap (λ ev, match ev with Data m => Some m | _ => None end) evs.

(** The registry keys announced by the data items: the keys of the [sid]s of
    the items of type [subscribe]. *)
Definition announced (items : list value) : list string :=
  (λ m, to_string (get m "sid")) <$> filter (λ m, is_subscribe m = true) items.

(** What [parseInt] and [Math.max] compute with: [NaN], an integer, or an
    infinity, which [parseInt] gives for a numeral too long for a number. *)
Inductive number : Type :=
| NaN
| Int (n : Z)
| Infinity
| NegInfinity.

(** [Math.max(x, 1024)] *)
Definition max_1024 (x : number) : number :=
  match x with
  | NaN => NaN
  | Int n => Int (Z.max n 1024)
  | Infinity => Infinity
  | NegInfinity => Int 1024
  end.

(** [x || 9230] *)
Definition or_9230 (x : number) : number :=
  match x with
  | NaN | Int 0 => Int 9230
  | _ => x
  end.

(** [process.env.INSPECT_PLUGIN_PORT
      && Math.max(parseInt(process.env.INSPECT_PLUGIN_PORT), 1024) || 9230];
    [parseInt] is the built-in. *)
Definition debugPort (parseInt : string → number) (INSPECT_PLUGIN_PORT : value)
  : number :=
  if truthy INSPECT_PLUGIN_PORT then
    or_9230 (max_1024 (parseInt (to_string INSPECT_PLUGIN_PORT)))
  else Int 9230.

(** The text a template literal gives for a number; [print] is the built-in
    conversion of an integer, which writes its decimal digits only below
    [10^21]. *)
Definition number_text (print : Z → string) (x : number) : string :=
  match x with
  | NaN => "NaN"
  | Int n => print n
  | Infinity => "Infinity"
  | NegInfinity => "-Infinity"
  end.

(** The arguments of the plugin host process: the host script and the path of
    the plugin, behind the inspector flag when [process.env.INSPECT_PLUGIN]
    is the name of the plugin. *)
Definition spawn_args (parseInt : string → number) (print : Z → string)
  (INSPECT_PLUGIN INSPECT_PLUGIN_PORT : value)
  (plugin_host plugin_name plugin_path : string) : list string :=
  let args := [plugin_host; plugin_path] in
  if is_str INSPECT_PLUGIN plugin_name then
    ("--inspect-brk=" +:+ number_text print (debugPort parseInt INSPECT_PLUGIN_PORT))
    :: args
  else args.

(** [Object.assign(target, source)] on the own properties. *)
Definition Object_assign (target source : list (string * value))
  : list (string * value) :=
  foldl (λ acc entry, set_field entry.1 entry.2 acc) target source.

(** [Object.assign({ FORCE_COLOR: 1 }, process.env)] *)
Definition spawn_env (process_env : list (string * value)) : list (string * value) :=
  Object_assign [("FORCE_COLOR", VNum 1)] process_env.

(** The root dispatcher's [call] as patched by [startChild]: [local] is what
    the original call settles to, [reply] the parent's answer if the request
    is forwarded; [is_DispatcherError] stands for
    [err instanceof DispatcherError]. *)
Definition rootDispatcher_call (is_DispatcherError : value → bool) (this : t)
  (path payload : value) (local reply : outcome) : outcome * list effect :=
  match local with
  | Fulfilled v => (Fulfilled v, [DispatcherCall path payload])
  | Rejected err =>
      if is_DispatcherError err && is_num (get err "statusCode") 404 then
        let '(o, sent) := appcd_call this path payload reply in
        (o,
         (DispatcherCall path payload
          :: Logged LLog (VStr ("No route for " +:+ to_string path
                                +:+ " in child process, forwarding to parent process"))
          :: sent)%list)
      else (Rejected err, [DispatcherCall path payload])
  end.

End ExternalPlugin.

(** * Properties *)

Import ExternalPlugin.

Local Open Scope list_scope.

(** ** Strict equality with a literal *)

Lemma is_str_true (v : value) (lit : string) : is_str v lit = true ↔ v = VStr lit.
Proof.
  destruct v; simpl; try (split; [discriminate | congruence]).
  rewrite String.eqb_eq. split; [intros ->; reflexivity | congruence].
Qed.

Lemma is_num_true (v : value) (n : Z) : is_num v n = true ↔ v = VNum n.
Proof.
  destruct v; simpl; try (split; [discriminate | congruence]).
  rewrite Z.eqb_eq. split; [intros ->; reflexivity | congruence].
Qed.


(** A value with a property is not [null] or [undefined]. *)
Lemma get_defined (v : value) (k : string) : get v k ≠ VUndefined → nullish v = false.
Proof. by destruct v. Qed.

Lemma typed_defined (v : value) (lit : string) :
  get v "type" = VStr lit → nullish v = false.
Proof. intros Htype. apply (get_defined v "type"). by rewrite Htype. Qed.

(** ** [globals.appcd.call] before the tunnel exists *)

(** C10: while the tunnel is [null], [globals.appcd.call] returns a promise
    rejected with the error [Tunnel not initialized!], whatever the peer would
    have answered, and performs no effect: nothing is written to a
    transport. *)
Theorem appcd_call_without_tunnel (this : t) (path data : value) (reply : outcome) :
  tunnel this = None →
  appcd_call this path data reply
  = (Rejected (new_Error "Tunnel not initialized!"), []).
Proof. intros Hnone. unfold appcd_call. by rewrite Hnone. Qed.

Lemma appcd_call_without_tunnel_witness :
  tunnel (new starting_info None) = None ∧
  appcd_call (new starting_info None) (VStr "/appcd/status") VUndefined
    (Fulfilled (VNum 1))
  = (Rejected (VObj [("message", VStr "Tunnel not initialized!")]), []).
Proof.
  split; [reflexivity |].
  apply (appcd_call_without_tunnel (new starting_info None)). reflexivity.
Defined.

(** ** [dispatch] *)




(** ** The stream registry *)

Lemma assign_stream_plain (puts : stream → string → put) (k : string) (r : stream)
  (reg : registry) :
  proto reg = ObjectPrototype → k ≠ "__proto__" →
  assign_stream puts k r reg
  = Return {| own := <[k := r]> (own reg); proto := ObjectPrototype |}.
Proof.
  intros Hproto Hk. unfold assign_stream. rewrite Hproto.
  assert (String.eqb k "__proto__" = false) as -> by by apply String.eqb_neq.
  by destruct (own reg !! k).
Qed.

Lemma lookup_stream_registered (reg : registry) (k : string) (r : stream) :
  own reg !! k = Some r → lookup_stream reg k = Registered r.
Proof. intros Hown. unfold lookup_stream. by rewrite Hown. Qed.

Lemma lookup_stream_unset (reg : registry) (k : string) :
  own reg !! k = None → proto reg = ObjectPrototype → ordinary k →
  lookup_stream reg k = Unset.
Proof.
  intros Hown Hproto Hordinary. unfold lookup_stream. rewrite Hown, Hproto.
  unfold ordinary in Hordinary. apply not_elem_of_cons in Hordinary as [Hne Hmember].
  assert (String.eqb k "__proto__" = false) as -> by by apply String.eqb_neq.
  by rewrite bool_decide_eq_false_2.
Qed.

Lemma lookup_stream_inherited (reg : registry) (k : string) :
  own reg !! k = None → proto reg = ObjectPrototype →
  k ∈ "__proto__" :: Object_prototype_members →
  lookup_stream reg k = ThePrototype ObjectPrototype ∨ lookup_stream reg k = ObjectMember.
Proof.
  intros Hown Hproto Hin. unfold lookup_stream. rewrite Hown, Hproto.
  destruct (String.eqb k "__proto__") eqn:Hk; [by left|]. right.
  apply elem_of_cons in Hin as [->|Hin]; [done|].
  by rewrite bool_decide_eq_true_2.
Qed.

(** ** [unsubscribe] messages *)

Lemma parent_on_unsubscribe (logger_id : value) (this : t) (started : promise)
  (req : value) :
  get req "type" = VStr "unsubscribe" →
  parent_on_message logger_id this started req
  = ((on_unsubscribe this req).1, started, (on_unsubscribe this req).2).
Proof.
  intros Htype. unfold parent_on_message.
  rewrite (typed_defined _ _ Htype), Htype. simpl.
  by destruct (on_unsubscribe this req).
Qed.

Lemma on_unsubscribe_registered (this : t) (req : value) (r : stream) :
  own (streams this) !! to_string (get req "sid") = Some r →
  on_unsubscribe this req
  = (with_streams (delete_stream (to_string (get req "sid"))) this, [StreamEnd r]).
Proof.
  intros Hreg. unfold on_unsubscribe.
  by rewrite (lookup_stream_registered _ _ _ Hreg).
Qed.

Lemma on_unsubscribe_unknown (this : t) (req : value) :
  own (streams this) !! to_string (get req "sid") = None →
  proto (streams this) = ObjectPrototype →
  ordinary (to_string (get req "sid")) →
  on_unsubscribe this req = (this, []).
Proof.
  intros Hreg Hproto Hordinary. unfold on_unsubscribe.
  by rewrite lookup_stream_unset.
Qed.

(** C8, what the code does with an [unsubscribe] message received by the
    parent, with [key] the property key of its [sid].  If a stream is
    registered under [key], it is ended, once, and the registration removed.
    If none is registered, the registry has its original prototype and [key]
    names no member of [Object.prototype], the message changes nothing and
    has no effect; so then has a second [unsubscribe] for the same id.  But
    the registry is a plain object: if [key] is not registered and names a
    member of [Object.prototype], the guard finds the inherited member, the
    call of its [end] throws a [TypeError], and nothing is changed.  And a
    relay that registers its stream under [__proto__] makes it the prototype
    of the registry: each [unsubscribe] for [__proto__] then ends that stream
    and removes nothing. *)
Theorem unsubscribe_finds_inherited_members (logger_id : value) (this : t)
  (started : promise) (req : value) :
  get req "type" = VStr "unsubscribe" →
  let key := to_string (get req "sid") in
  let after := parent_on_message logger_id this started req in
  after.1.2 = started ∧
  (∀ r, own (streams this) !! key = Some r →
        after.2 = [StreamEnd r] ∧
        after.1.1 = with_streams (delete_stream key) this ∧
        own (streams after.1.1) !! key = None ∧
        (∀ k, k ≠ key → own (streams after.1.1) !! k = own (streams this) !! k)) ∧
  (own (streams this) !! key = None → proto (streams this) = ObjectPrototype →
   ordinary key → after = (this, started, [])) ∧
  (proto (streams this) = ObjectPrototype → ordinary key →
   parent_on_message logger_id after.1.1 after.1.2 req = (after.1.1, after.1.2, [])) ∧
  (own (streams this) !! key = None → proto (streams this) = ObjectPrototype →
   key ∈ "__proto__" :: Object_prototype_members →
   after.1.1 = this ∧ ∃ e, after.2 = [Thrown e]) ∧
  (∀ puts rl message,
     get message "type" = VStr "subscribe" → get message "sid" = get req "sid" →
     key = "__proto__" → own (streams this) !! key = None →
     let registered := (parent_relay puts this rl (Data message)).1.1 in
     let once := parent_on_message logger_id registered started req in
     streams registered = {| own := own (streams this);
                             proto := StreamPrototype (response rl) |} ∧
     once = (registered, started, [StreamEnd (response rl)]) ∧
     parent_on_message logger_id once.1.1 once.1.2 req
     = (registered, started, [StreamEnd (response rl)])).
Proof.
  intros Htype key after. subst after.
  rewrite (parent_on_unsubscribe _ _ _ _ Htype). cbn [fst snd].
  split; [done|]. split; [|split; [|split; [|split]]].
  - intros r Hreg. rewrite (on_unsubscribe_registered _ _ _ Hreg). simpl.
    repeat split.
    + apply lookup_delete_eq.
    + intros k Hk. by apply lookup_delete_ne.
  - intros Hnone Hproto Hordinary. by rewrite on_unsubscribe_unknown.
  - intros Hproto Hordinary. rewrite (parent_on_unsubscribe _ _ _ _ Htype).
    destruct (own (streams this) !! key) as [r|] eqn:Hreg.
    + rewrite (on_unsubscribe_registered _ _ _ Hreg). simpl.
      rewrite on_unsubscribe_unknown; [done | apply lookup_delete_eq | done | done].
    + rewrite (on_unsubscribe_unknown this req) by done. simpl.
      by rewrite on_unsubscribe_unknown.
  - intros Hnone Hproto Hin. unfold on_unsubscribe. fold key.
    destruct (lookup_stream_inherited _ _ Hnone Hproto Hin) as [-> | ->];
      by eauto.
  - intros puts rl message Hsubscribe Hsid Hkey Hnone.
    set (registered := (parent_relay puts this rl (Data message)).1.1).
    set (once := parent_on_message logger_id registered started req).
    assert (registered
            = with_streams (λ _, {| own := own (streams this);
                                    proto := StreamPrototype (response rl) |}) this)
      as Hregistered.
    { subst registered. unfold parent_relay.
      rewrite (typed_defined _ _ Hsubscribe), Hsubscribe, Hsid. simpl. fold key.
      unfold assign_stream. by rewrite Hnone, Hkey. }
    assert (on_unsubscribe registered req = (registered, [StreamEnd (response rl)]))
      as Hended.
    { unfold on_unsubscribe, lookup_stream. fold key.
      rewrite Hregistered. simpl. by rewrite Hnone, Hkey. }
    assert (once = (registered, started, [StreamEnd (response rl)])) as Honce.
    { subst once. rewrite (parent_on_unsubscribe _ _ _ _ Htype). by rewrite Hended. }
    split; [by rewrite Hregistered|]. split; [done|].
    rewrite Honce. simpl. rewrite (parent_on_unsubscribe _ _ _ _ Htype).
    by rewrite Hended.
Qed.

Lemma unsubscribe_finds_inherited_members_witness :
  let req := VObj [("type", VStr "unsubscribe"); ("sid", VStr "constructor")] in
  (parent_on_message VNull starting_parent Pending req).1.1 = starting_parent ∧
  ∃ e, (parent_on_message VNull starting_parent Pending req).2 = [Thrown e].
Proof.
  intros req.
  destruct (unsubscribe_finds_inherited_members VNull starting_parent Pending req eq_refl)
    as (_ & _ & _ & _ & Hthrows & _).
  apply Hthrows; [reflexivity | reflexivity |].
  apply list_elem_of_further, list_elem_of_here.
Defined.

(** ** The exit of the child process *)

#[local] Arguments closed_dirs : simpl never.
#[local] Arguments transitions : simpl never.

Lemma closed_dirs_close_watchers (ws : gmap string fswatcher) :
  closed_dirs (close_watchers ws) = (map_to_list ws).*1.
Proof.
  unfold close_watchers, closed_dirs.
  induction (map_to_list ws) as [|[dir w] l IH]; csimpl; [done | by rewrite IH].
Qed.

Lemma closed_dirs_on_exit (log last_ : effect) (ws : gmap string fswatcher) :
  closed_dirs [log] = [] → closed_dirs [last_] = [] →
  closed_dirs (log :: close_watchers ws ++ [last_]) = (map_to_list ws).*1.
Proof.
  intros Hlog Hlast. unfold closed_dirs in *.
  change (log :: close_watchers ws ++ [last_])
    with ([log] ++ close_watchers ws ++ [last_]).
  rewrite !omap_app, Hlog, Hlast, app_nil_r. apply closed_dirs_close_watchers.
Qed.

Lemma transitions_on_exit (log : effect) (ws : gmap string fswatcher)
  (s : lifecycle) (err : option value) :
  transitions [log] = [] →
  transitions (log :: close_watchers ws ++ [SetState s err]) = [(s, err)].
Proof.
  intros Hlog. unfold transitions in *.
  change (log :: close_watchers ws ++ [SetState s err])
    with ([log] ++ close_watchers ws ++ [SetState s err]).
  rewrite !omap_app, Hlog. simpl.
  assert (omap (λ e, match e with SetState s0 err0 => Some (s0, err0) | _ => None end)
            (close_watchers ws) = []) as ->; [|done].
  unfold close_watchers. induction (map_to_list ws) as [|[dir w] l IH]; csimpl; done.
Qed.

Lemma elem_of_watched_dirs (ws : gmap string fswatcher) (dir : string) :
  dir ∈ (map_to_list ws).*1 ↔ is_Some (ws !! dir).
Proof.
  rewrite list_elem_of_fmap. split.
  - intros [[d w] [-> Hin]]. apply elem_of_map_to_list in Hin. by exists w.
  - intros [w Hw]. exists (dir, w). split; [done|]. by apply elem_of_map_to_list.
Qed.

(** What every exit does, whatever the state and the code: the tunnel and
    the process id are cleared, each watcher is closed once and none is left,
    and the lifecycle is [STOPPED]. *)
Lemma on_exit_always (this : t) (started : promise) (data : value) :
  let after := on_exit this started data in
  tunnel after.1.1 = None ∧
  pid (info after.1.1) = VNull ∧
  watchers after.1.1 = ∅ ∧
  state (info after.1.1) = STOPPED ∧
  closed_dirs after.2 = (map_to_list (watchers this)).*1.
Proof.
  unfold on_exit, setState. simpl.
  repeat case_match; simpl; repeat split; by apply closed_dirs_on_exit.
Qed.

(** C2, as the code has it, for a child that exits while the lifecycle is
    [STARTING].  With a truthy (non-zero) exit code, the pending promise of
    [startParent] is rejected with a [PluginError], so [onStart] rejects with
    it; the lifecycle goes to [STOPPED] with that error and the exit code is
    recorded.  The error's message is the one recorded by an
    [activation_error] event when there is one, and otherwise the text
    [Failed to activate plugin (code N)] with [N] the exit code, which is then
    also stored in [info.error]; the stack recorded by the event, if any,
    becomes the error's stack.  With the code 0 or without a code, the
    promise stays pending and [onStart] has no outcome; the lifecycle goes to
    [STOPPED] by a transition that carries no error, and neither the recorded
    error nor the exit code is written. *)
Theorem exit_while_starting_rejects_start (this : t) (data : value) :
  state (info this) = STARTING →
  let after := on_exit this Pending data in
  let this' := after.1.1 in
  (truthy (get data "code") = true →
   ∃ err,
     after.1.2 = Settled (Rejected err) ∧
     (∃ stopped out,
        startParent_settled this' after.1.2 = Some (stopped, Rejected err, out) ∧
        state (info stopped) = STOPPED) ∧
     transitions after.2 = [(STOPPED, Some err)] ∧
     state (info this') = STOPPED ∧
     exitCode (info this') = get data "code" ∧
     get err "message" = error (info this') ∧
     (truthy (error (info this)) = true → error (info this') = error (info this)) ∧
     (truthy (error (info this)) = false →
        error (info this')
        = VStr ("Failed to activate plugin (code "
                +:+ to_string (get data "code") +:+ ")")) ∧
     (truthy (stack (info this)) = true → get err "stack" = stack (info this))) ∧
  (truthy (get data "code") = false →
   after.1.2 = Pending ∧
   startParent_settled this' after.1.2 = None ∧
   transitions after.2 = [(STOPPED, None)] ∧
   state (info this') = STOPPED ∧
   error (info this') = error (info this) ∧
   stack (info this') = stack (info this) ∧
   exitCode (info this') = exitCode (info this)).
Proof.
  intros Hstate. unfold on_exit, setState. simpl. rewrite Hstate. split.
  - intros Hcode. rewrite Hcode.
    destruct (truthy (error (info this))) eqn:Herr; simpl;
      destruct (truthy (stack (info this))) eqn:Hstack; simpl;
      eexists; (split; [reflexivity|]);
      (split; [eexists _, _; split; reflexivity|]);
      (split; [by apply transitions_on_exit|]);
      repeat split; done.
  - intros Hcode. rewrite Hcode. simpl.
    do 2 (split; [reflexivity|]). split; [by apply transitions_on_exit|].
    repeat split; done.
Qed.

Lemma exit_while_starting_rejects_start_witness :
  let after := on_exit starting_parent Pending (exit_data (VNum 6)) in
  start_rejected after.1.2 ∧
  error (info after.1.1) = VStr "Failed to activate plugin (code 6)" ∧
  (on_exit starting_parent Pending (exit_data VNull)).1.2 = Pending.
Proof.
  intros after.
  destruct (exit_while_starting_rejects_start starting_parent (exit_data (VNum 6))
              eq_refl) as [Hcode _].
  destruct (Hcode eq_refl) as (err & Hrejected & _ & _ & _ & _ & _ & _ & Hsynth & _).
  destruct (exit_while_starting_rejects_start starting_parent (exit_data VNull)
              eq_refl) as [_ Hnocode].
  destruct (Hnocode eq_refl) as (Hpending & _).
  split; [by exists err|]. split; [apply Hsynth; reflexivity | exact Hpending].
Defined.

(** C2 fails as stated: a child that exits with code 0 while the lifecycle is
    [STARTING] leaves the promise of [startParent] pending. *)
Lemma exit_code_zero_while_starting_counterexample :
  state (info starting_parent) = STARTING ∧
  ¬ start_rejected (on_exit starting_parent Pending (exit_data (VNum 0))).1.2.
Proof.
  split; [reflexivity|]. intros [err Herr]. vm_compute in Herr. discriminate.
Qed.



(** ** The stream relay *)

Lemma sid_after_last (sid0 : value) (items : list value) :
  sid_after sid0 items
  = match last (filter (λ m, is_subscribe m = true) items) with
    | Some m => get m "sid"
    | None => sid0
    end.
Proof.
  revert sid0. induction items as [|m rest IH]; intros sid0; [done|].
  unfold sid_after in *. simpl. rewrite IH, filter_cons.
  destruct (is_subscribe m) eqn:Hsub.
  - rewrite decide_True by done. rewrite last_cons.
    by destruct (last (filter _ rest)).
  - by rewrite decide_False by done.
Qed.

Lemma sid_after_captured (items : list value) :
  sid_after VUndefined items = captured items.
Proof. apply sid_after_last. Qed.

Lemma sid_after_cons (sid0 m : value) (items : list value) :
  sid_after sid0 (m :: items)
  = sid_after (if is_subscribe m then get m "sid" else sid0) items.
Proof. done. Qed.

Lemma announced_cons (m : value) (items : list value) :
  announced (m :: items)
  = if is_subscribe m then to_string (get m "sid") :: announced items
    else announced items.
Proof.
  unfold announced. rewrite filter_cons.
  destruct (is_subscribe m) eqn:Hsub.
  - by rewrite decide_True.
  - by rewrite decide_False.
Qed.

Lemma parent_relay_run_app (puts : stream → string → put) (this : t) (rl : relay)
  (evs1 evs2 : list stream_event) :
  parent_relay_run puts this rl (evs1 ++ evs2)
  = let '(this1, rl1, out1) := parent_relay_run puts this rl evs1 in
    let '(this2, rl2, out2) := parent_relay_run puts this1 rl1 evs2 in
    (this2, rl2, out1 ++ out2).
Proof.
  revert this rl. induction evs1 as [|ev evs1 IH]; intros this rl; simpl.
  - by destruct (parent_relay_run puts this rl evs2) as [[this2 rl2] out2].
  - destruct (parent_relay puts this rl ev) as [[this0 rl0] out0].
    rewrite IH.
    destruct (parent_relay_run puts this0 rl0 evs1) as [[this1 rl1] out1].
    destruct (parent_relay_run puts this1 rl1 evs2) as [[this2 rl2] out2].
    by rewrite app_assoc.
Qed.

Lemma child_relay_run_app (rl : relay) (evs1 evs2 : list stream_event) :
  child_relay_run rl (evs1 ++ evs2)
  = let '(rl1, out1) := child_relay_run rl evs1 in
    let '(rl2, out2) := child_relay_run rl1 evs2 in
    (rl2, out1 ++ out2).
Proof.
  revert rl. induction evs1 as [|ev evs1 IH]; intros rl; simpl.
  - by destruct (child_relay_run rl evs2) as [rl2 out2].
  - destruct (child_relay rl ev) as [rl0 out0]. rewrite IH.
    destruct (child_relay_run rl0 evs1) as [rl1 out1].
    destruct (child_relay_run rl1 evs2) as [rl2 out2].
    by rewrite app_assoc.
Qed.

(** One data item in the parent, on a registry that has its original
    prototype, for an item that can be read and does not announce
    [__proto__]: the item is forwarded as it is, and an item of type
    [subscribe] registers the stream under its id. *)
Lemma parent_relay_data (puts : stream → string → put) (this : t) (rl : relay)
  (m : value) :
  defined m → proto (streams this) = ObjectPrototype →
  "__proto__" ∉ announced [m] →
  parent_relay puts this rl (Data m)
  = if is_subscribe m then
      (with_streams (λ reg, {| own := <[to_string (get m "sid") := response rl]> (own reg);
                               proto := ObjectPrototype |}) this,
       with_sid (get m "sid") rl, [Reply m])
    else (this, rl, [Reply m]).
Proof.
  intros Hdefined Hproto Hannounced. unfold parent_relay. rewrite Hdefined.
  rewrite announced_cons in Hannounced. unfold is_subscribe in *.
  destruct (is_str (get m "type") "subscribe"); [|done].
  rewrite assign_stream_plain; [done | done |].
  intros Hkey. apply Hannounced. rewrite Hkey. apply list_elem_of_here.
Qed.

(** Data items are forwarded one for one; they only move the variable [sid]
    and register the stream under the announced ids, and leave both [once]
    listeners in place. *)
Lemma parent_relay_run_data (puts : stream → string → put) (this : t) (rl : relay)
  (items : list value) :
  Forall defined items → proto (streams this) = ObjectPrototype →
  "__proto__" ∉ announced items →
  ∃ live,
    parent_relay_run puts this rl (Data <$> items)
    = (live,
       {| response := response rl; sid := sid_after (sid rl) items;
          end_armed := end_armed rl; error_armed := error_armed rl |},
       Reply <$> items) ∧
    proto (streams live) = ObjectPrototype ∧
    (∀ k, own (streams live) !! k
          = if decide (k ∈ announced items) then Some (response rl)
            else own (streams this) !! k) ∧
    tunnel live = tunnel this ∧ watchers live = watchers this ∧ info live = info this.
Proof.
  revert this rl. induction items as [|m rest IH]; intros this rl Hdefined Hproto Hkeys.
  { exists this. split; [by destruct rl|]. split; [done|]. split; [|done].
    intros k. rewrite decide_False; [done|].
    unfold announced. rewrite filter_nil. apply not_elem_of_nil. }
  apply Forall_cons in Hdefined as [Hm Hrest].
  rewrite fmap_cons. cbn [parent_relay_run].
  rewrite announced_cons in Hkeys.
  rewrite parent_relay_data; [|done|done|].
  2:{ rewrite announced_cons. unfold announced at 2. rewrite filter_nil. simpl.
      destruct (is_subscribe m); [|apply not_elem_of_nil].
      intros Hin. apply Hkeys. apply list_elem_of_singleton in Hin. rewrite Hin.
      apply list_elem_of_here. }
  rewrite sid_after_cons, announced_cons.
  destruct (is_subscribe m).
  - apply not_elem_of_cons in Hkeys as [Hkey Hkeys].
    destruct (IH (with_streams (λ reg, {| own := <[to_string (get m "sid") := response rl]>
                                                  (own reg);
                                        proto := ObjectPrototype |}) this)
                (with_sid (get m "sid") rl) Hrest eq_refl Hkeys)
      as (live & -> & Hlive & Hreg & Htunnel & Hwatchers & Hinfo).
    exists live. split; [done|]. split; [done|]. split; [|done].
    intros k. rewrite Hreg. simpl.
    destruct (decide (k ∈ announced rest)) as [Hin|Hnotin].
    + rewrite decide_True; [done | by apply list_elem_of_further].
    + destruct (decide (k = to_string (get m "sid"))) as [->|Hne].
      * rewrite decide_True by apply list_elem_of_here. apply lookup_insert_eq.
      * rewrite decide_False by (apply not_elem_of_cons; done).
        by apply lookup_insert_ne.
  - destruct (IH this rl Hrest Hproto Hkeys)
      as (live & -> & Hlive & Hreg & Htunnel & Hwatchers & Hinfo).
    by exists live.
Qed.

Lemma assign_stream_returns (puts : stream → string → put) (k : string) (r : stream)
  (reg : registry) :
  never_refuses puts → ∃ registered, assign_stream puts k r reg = Return registered.
Proof.
  intros Hputs. unfold assign_stream.
  destruct (own reg !! k); [by eexists|].
  destruct (String.eqb k "__proto__"); [by eexists|].
  destruct (proto reg) as [|p]; [by eexists|].
  specialize (Hputs p k).
  destruct (puts p k); [by eexists | by eexists | by exfalso].
Qed.

(** One data item in the parent, when the registration is not refused. *)
Lemma parent_relay_forwards (puts : stream → string → put) (this : t) (rl : relay)
  (m : value) :
  defined m → never_refuses puts →
  ∃ this',
    parent_relay puts this rl (Data m)
    = (this', if is_subscribe m then with_sid (get m "sid") rl else rl, [Reply m]).
Proof.
  intros Hdefined Hputs. unfold parent_relay, is_subscribe. rewrite Hdefined.
  destruct (is_str (get m "type") "subscribe"); [|by eexists].
  destruct (assign_stream_returns puts (to_string (get m "sid")) (response rl)
              (streams this) Hputs) as [registered ->].
  by eexists.
Qed.

Lemma parent_relay_run_forwards (puts : stream → string → put) (this : t) (rl : relay)
  (items : list value) :
  Forall defined items → never_refuses puts →
  ∃ live,
    parent_relay_run puts this rl (Data <$> items)
    = (live,
       {| response := response rl; sid := sid_after (sid rl) items;
          end_armed := end_armed rl; error_armed := error_armed rl |},
       Reply <$> items).
Proof.
  revert this rl. induction items as [|m rest IH]; intros this rl Hdefined Hputs.
  { exists this. by destruct rl. }
  apply Forall_cons in Hdefined as [Hm Hrest].
  rewrite fmap_cons. cbn [parent_relay_run].
  destruct (parent_relay_forwards puts this rl m Hm Hputs) as [this1 ->].
  rewrite sid_after_cons.
  destruct (IH this1 (if is_subscribe m then with_sid (get m "sid") rl else rl)
              Hrest Hputs) as [live ->].
  exists live. by destruct (is_subscribe m).
Qed.

(** The item the child forwards for a data item that can be read. *)
Lemma child_relay_data (rl : relay) (m : value) :
  defined m →
  let held := if is_subscribe m then get m "sid" else sid rl in
  ∃ forwarded,
    child_forward held m = Return forwarded ∧
    child_relay rl (Data m)
    = (if is_subscribe m then with_sid (get m "sid") rl else rl, [Reply forwarded]).
Proof.
  intros Hdefined held. subst held. unfold child_relay, child_forward, is_subscribe.
  rewrite Hdefined.
  destruct (is_str (get m "type") "subscribe"); simpl;
    destruct (typeof_object m); by eexists.
Qed.

Lemma child_relay_run_data (rl : relay) (items : list value) :
  Forall defined items →
  ∃ forwarded,
    Forall2 (λ m f, ∃ held, child_forward held m = Return f) items forwarded ∧
    child_relay_run rl (Data <$> items)
    = ({| response := response rl; sid := sid_after (sid rl) items;
          end_armed := end_armed rl; error_armed := error_armed rl |},
       Reply <$> forwarded).
Proof.
  revert rl. induction items as [|m rest IH]; intros rl Hdefined.
  { exists []. split; [constructor | by destruct rl]. }
  apply Forall_cons in Hdefined as [Hm Hrest].
  rewrite fmap_cons. cbn [child_relay_run].
  destruct (child_relay_data rl m Hm) as (f & Hf & ->).
  rewrite sid_after_cons.
  destruct (IH (if is_subscribe m then with_sid (get m "sid") rl else rl) Hrest)
    as (forwarded & Hforwarded & ->).
  exists (f :: forwarded). split.
  - constructor; [by eexists | done].
  - by destruct (is_subscribe m).
Qed.

Lemma replies_Reply (ms : list value) : replies (Reply <$> ms) = ms.
Proof. unfold replies. induction ms as [|m ms IH]; csimpl; [done | by rewrite IH]. Qed.

Lemma replies_app (a b : list effect) : replies (a ++ b) = replies a ++ replies b.
Proof. apply omap_app. Qed.

Lemma instance_sends_app (a b : list effect) :
  instance_sends (a ++ b) = instance_sends a ++ instance_sends b.
Proof. apply omap_app. Qed.

(** Neither [error] listener gives anything to the reply callback. *)
Lemma replies_on_stream_error (err : value) : replies (on_stream_error err) = [].
Proof. unfold on_stream_error. by destruct (nullish err). Qed.

Lemma parent_relay_run_ended (puts : stream → string → put) (this : t) (r : stream)
  (items : list value) (tail : list stream_event) :
  Forall defined items → proto (streams this) = ObjectPrototype →
  "__proto__" ∉ announced items →
  ∃ live,
    parent_relay_run puts this (new_relay r) ((Data <$> items) ++ tail)
    = (let '(this2, rl2, out2) :=
         parent_relay_run puts live
           {| response := r; sid := captured items; end_armed := true;
              error_armed := true |} tail in
       (this2, rl2, (Reply <$> items) ++ out2)) ∧
    proto (streams live) = ObjectPrototype ∧
    (∀ k, own (streams live) !! k
          = if decide (k ∈ announced items) then Some r else own (streams this) !! k).
Proof.
  intros Hdefined Hproto Hkeys.
  destruct (parent_relay_run_data puts this (new_relay r) items Hdefined Hproto Hkeys)
    as (live & Hdata & Hlive & Hreg & _).
  exists live. split; [|done].
  rewrite parent_relay_run_app, Hdata. simpl. by rewrite sid_after_captured.
Qed.

Lemma parent_relay_run_then (puts : stream → string → put) (this : t) (r : stream)
  (items : list value) (tail : list stream_event) :
  Forall defined items → never_refuses puts →
  ∃ live,
    parent_relay_run puts this (new_relay r) ((Data <$> items) ++ tail)
    = (let '(this2, rl2, out2) :=
         parent_relay_run puts live
           {| response := r; sid := captured items; end_armed := true;
              error_armed := true |} tail in
       (this2, rl2, (Reply <$> items) ++ out2)).
Proof.
  intros Hdefined Hputs.
  destruct (parent_relay_run_forwards puts this (new_relay r) items Hdefined Hputs)
    as (live & Hdata).
  exists live. rewrite parent_relay_run_app, Hdata. simpl.
  by rewrite sid_after_captured.
Qed.

Lemma child_relay_run_ended (r : stream) (items : list value)
  (tail : list stream_event) :
  Forall defined items →
  ∃ forwarded,
    Forall2 (λ m f, ∃ held, child_forward held m = Return f) items forwarded ∧
    child_relay_run (new_relay r) ((Data <$> items) ++ tail)
    = let '(rl2, out2) :=
        child_relay_run
          {| response := r; sid := captured items; end_armed := true;
             error_armed := true |} tail in
      (rl2, (Reply <$> forwarded) ++ out2).
Proof.
  intros Hdefined.
  destruct (child_relay_run_data (new_relay r) items Hdefined)
    as (forwarded & Hforwarded & Hdata).
  exists forwarded. split; [done|]. rewrite child_relay_run_app, Hdata. simpl.
  by rewrite sid_after_captured.
Qed.

Lemma subscribe_item_is_last (items : list value) :
  (∃ m, m ∈ items ∧ is_subscribe m = true)
  ↔ is_Some (last (filter (λ m, is_subscribe m = true) items)).
Proof.
  rewrite last_is_Some. split.
  - intros (m & Hin & Hsub). apply (elem_of_not_nil m).
    by apply list_elem_of_filter.
  - intros Hne. destruct (filter _ items) as [|m l] eqn:Hfilter; [done|].
    exists m. apply and_comm.
    apply (list_elem_of_filter (λ m, is_subscribe m = true)).
    rewrite Hfilter. apply list_elem_of_here.
Qed.

(** C1, as the code has it, for the relay of the parent and for the relay of
    the child.  Take data items none of which is [null] or [undefined], and in
    the parent a registry in which the registration of the stream is not
    refused.  When the stream emits the items and
    then ends, the relay sends one forwarded message per item (the parent
    forwards the items themselves, the child what [child_forward] makes of
    them) and after them at most one message [{ sid, type: 'fin' }], and
    nothing else.  The [fin] is sent exactly when the relay holds a
    subscription id at the end, that is when the last item of type
    [subscribe] carried a truthy [sid]; if every item of type [subscribe]
    carries one, that is exactly when some item had type [subscribe].  The
    [error] listener sends no reply, so no [fin]; but in both relays an [end]
    event that follows the error is answered as usual, with the [fin] when an
    id is held.  An item that is [null] or [undefined] makes the [data]
    listener throw: nothing is forwarded for it and the relay is left as it
    was; and so does, in the parent, an item of type [subscribe] whose
    registration is refused. *)
Theorem relay_forwards_then_fin (puts : stream → string → put) (this : t)
  (r : stream) (items : list value) :
  Forall defined items →
  never_refuses puts →
  let ended := (Data <$> items) ++ [End_] in
  let errored err := (Data <$> items) ++ [Error err; End_] in
  let fin_tail := if truthy (captured items) then [fin (captured items)] else [] in
  (parent_relay_run puts this (new_relay r) ended).2 = Reply <$> (items ++ fin_tail) ∧
  (∃ forwarded,
     Forall2 (λ m f, ∃ held, child_forward held m = Return f) items forwarded ∧
     (child_relay_run (new_relay r) ended).2 = Reply <$> (forwarded ++ fin_tail)) ∧
  (fin_tail ≠ [] ↔
     ∃ m, last (filter (λ m, is_subscribe m = true) items) = Some m ∧
          truthy (get m "sid") = true) ∧
  ((∀ m, m ∈ items → is_subscribe m = true → truthy (get m "sid") = true) →
     (fin_tail ≠ [] ↔ ∃ m, m ∈ items ∧ is_subscribe m = true)) ∧
  (∀ this0 rl err,
     replies (parent_relay puts this0 rl (Error err)).2 = [] ∧
     replies (child_relay rl (Error err)).2 = []) ∧
  (∀ err,
     replies (parent_relay_run puts this (new_relay r) (errored err)).2
     = items ++ fin_tail ∧
     ∃ forwarded,
       length forwarded = length items ∧
       replies (child_relay_run (new_relay r) (errored err)).2
       = forwarded ++ fin_tail) ∧
  (∀ this0 rl m,
     nullish m = true →
     (∃ e, parent_relay puts this0 rl (Data m) = (this0, rl, [Thrown e])) ∧
     (∃ e, child_relay rl (Data m) = (rl, [Thrown e]))) ∧
  (∀ refusing this0 rl m e,
     defined m → is_subscribe m = true →
     assign_stream refusing (to_string (get m "sid")) (response rl) (streams this0)
     = Throw e →
     parent_relay refusing this0 rl (Data m)
     = (this0, with_sid (get m "sid") rl, [Thrown e])).
Proof.
  intros Hdefined Hputs ended errored fin_tail.
  assert (fin_tail ≠ [] ↔
          ∃ m, last (filter (λ m, is_subscribe m = true) items) = Some m ∧
               truthy (get m "sid") = true) as Hfin.
  { subst fin_tail. unfold captured.
    destruct (last (filter _ items)) as [m|] eqn:Hlast.
    - destruct (truthy (get m "sid")) eqn:Hsid; split; try done.
      + intros _. by exists m.
      + intros (m' & [= <-] & Hsid'). congruence.
    - simpl. split; [done | by intros (m' & ? & _)]. }
  split; [|split; [|split; [|split; [|split; [|split; [|split]]]]]].
  - subst ended.
    destruct (parent_relay_run_then puts this r items [End_] Hdefined Hputs)
      as (live & ->).
    subst fin_tail. simpl. rewrite fmap_app.
    by destruct (truthy (captured items)).
  - subst ended.
    destruct (child_relay_run_ended r items [End_] Hdefined)
      as (forwarded & Hforwarded & ->).
    exists forwarded. split; [done|]. subst fin_tail. simpl. rewrite fmap_app.
    by destruct (truthy (captured items)).
  - exact Hfin.
  - intros Hsids. rewrite Hfin, subscribe_item_is_last. split.
    + intros (m & Hlast & _). by exists m.
    + intros [m Hlast]. exists m. split; [done|].
      pose proof (last_Some_elem_of _ _ Hlast) as Hin.
      apply list_elem_of_filter in Hin as [Hsub Hin]. by apply Hsids.
  - intros this0 rl err. unfold parent_relay, child_relay.
    destruct (error_armed rl); cbn [snd]; by rewrite ?replies_on_stream_error.
  - intros err. subst errored. split.
    + destruct (parent_relay_run_then puts this r items [Error err; End_]
                  Hdefined Hputs) as (live & ->).
      subst fin_tail. simpl. rewrite !replies_app, replies_Reply.
      by destruct (nullish err), (truthy (captured items)).
    + destruct (child_relay_run_ended r items [Error err; End_] Hdefined)
        as (forwarded & Hforwarded & ->).
      exists forwarded. split; [symmetry; by eapply Forall2_length|].
      subst fin_tail. simpl. rewrite !replies_app, replies_Reply.
      by destruct (nullish err), (truthy (captured items)).
  - intros this0 rl m Hnull. unfold parent_relay, child_relay. rewrite Hnull.
    split; by eexists.
  - intros refusing this0 rl m e Hm Hsub Hrefused. unfold parent_relay.
    unfold is_subscribe in Hsub. by rewrite Hm, Hsub, Hrefused.
Qed.

Lemma relay_forwards_then_fin_witness :
  (parent_relay_run plain_puts starting_parent (new_relay 7%nat)
     [Data subscribe_msg; Data event_msg; End_]).2
  = [Reply subscribe_msg; Reply event_msg; Reply (fin (VStr "s1"))] ∧
  (parent_relay_run plain_puts starting_parent (new_relay 7%nat)
     [Data event_msg; Data event_msg; End_]).2
  = [Reply event_msg; Reply event_msg].
Proof.
  split.
  - apply (relay_forwards_then_fin plain_puts starting_parent 7%nat
             [subscribe_msg; event_msg]).
    + repeat constructor.
    + intros p k. discriminate.
  - apply (relay_forwards_then_fin plain_puts starting_parent 7%nat
             [event_msg; event_msg]).
    + repeat constructor.
    + intros p k. discriminate.
Defined.

(** C1 fails as stated, in four ways.  A stream that emits a subscription,
    then an error, then ends: in the parent and in the child the [end]
    listener is still in place after the error and sends the [fin].  A stream
    whose first item reveals the subscription id [s1] and whose second item,
    again of type [subscribe], carries no id: it ends without a [fin].  A
    stream that emits the item [undefined] and ends: one data item, no
    forwarded message.  And, in the parent, a stream that announces the id
    [__proto__] and then the id [readableLength], which its class makes
    read-only: the first item makes the stream the prototype of the registry,
    the registration of the second is refused, and the second item is not
    forwarded. *)
Lemma relay_fin_counterexample :
  fin_after_error (parent_run_relay plain_puts) (starting_parent, new_relay 7%nat)
    [Data subscribe_msg; Error boom; End_] ∧
  fin_after_error child_relay_run (new_relay 7%nat)
    [Data subscribe_msg; Error boom; End_] ∧
  replies (parent_relay_run plain_puts starting_parent (new_relay 7%nat)
             [Data subscribe_msg; Data (VObj [("type", VStr "subscribe")]); End_]).2
  = [subscribe_msg; VObj [("type", VStr "subscribe")]] ∧
  replies (parent_relay_run plain_puts starting_parent (new_relay 7%nat)
             [Data VUndefined; End_]).2 = [] ∧
  replies (child_relay_run (new_relay 7%nat) [Data VUndefined; End_]).2 = [] ∧
  VObj [("type", VStr "subscribe"); ("sid", VStr "readableLength")]
  ∉ replies (parent_relay_run readonly_puts starting_parent (new_relay 7%nat)
               [Data (VObj [("type", VStr "subscribe"); ("sid", VStr "__proto__")]);
                Data (VObj [("type", VStr "subscribe");
                            ("sid", VStr "readableLength")]);
                End_]).2.
Proof.
  split; [|split; [|split; [done|split; [done|split; [done|]]]]].
  3:{ vm_compute. intros Hin. apply list_elem_of_In in Hin. simpl in Hin.
      intuition discriminate. }
  - exists [Data subscribe_msg], boom, [End_], (VStr "s1").
    split; [reflexivity|]. vm_compute. apply list_elem_of_here.
  - exists [Data subscribe_msg], boom, [End_], (VStr "s1").
    split; [reflexivity|]. vm_compute. apply list_elem_of_here.
Qed.

(** C5, what the code does when a relayed stream emits an error, in the
    parent and in the child.  The listener, which runs for the first error
    only, logs the error, builds the message
    [{ message: err.message || err, stack: err.stack,
       status: err.status || 500, type: 'error' }]
    and calls [this.send] with it: a method the class does not define.
    Nothing is given to the reply callback [send], which the [data] and [end]
    listeners and the [catch] of the dispatcher call use, nor to the tunnel:
    no message for the error is written to the tunnel.  On an error that is
    [null] or [undefined] building the message throws and [this.send] is not
    reached.  In the parent the registration under the id the relay holds is
    removed first, in both cases. *)
Theorem relay_error_is_not_replied (puts : stream → string → put) (this : t)
  (rl : relay) (err : value) :
  error_armed rl = true →
  let parent := parent_relay puts this rl (Error err) in
  let child := child_relay rl (Error err) in
  let msg := error_message err in
  parent.2 = child.2 ∧
  replies parent.2 = [] ∧ tunnel_sends parent.2 = [] ∧ tunnel_emits parent.2 = [] ∧
  (defined err → instance_sends parent.2 = [msg] ∧ thrown parent.2 = []) ∧
  (nullish err = true → instance_sends parent.2 = [] ∧ ∃ e, thrown parent.2 = [e]) ∧
  streams parent.1.1 = delete_stream (to_string (sid rl)) (streams this) ∧
  own (streams parent.1.1) !! to_string (sid rl) = None ∧
  (∀ err', parent_relay puts parent.1.1 parent.1.2 (Error err')
           = (parent.1.1, parent.1.2, []) ∧
           child_relay child.1 (Error err') = (child.1, [])) ∧
  (defined err → replies (on_dispatch_failed err) = [msg]) ∧
  get msg "type" = VStr "error" ∧
  get msg "stack" = get err "stack" ∧
  get msg "message" = Js.or (get err "message") err ∧
  get msg "status" = Js.or (get err "status") (VNum 500).
Proof.
  intros Harmed parent child msg. subst parent child msg.
  unfold parent_relay, child_relay, on_stream_error, on_dispatch_failed, defined.
  rewrite Harmed. simpl.
  split; [done|]. split; [by destruct (nullish err)|].
  split; [by destruct (nullish err)|]. split; [by destruct (nullish err)|].
  split; [by intros ->|]. split; [intros ->; by eauto|].
  split; [done|]. split; [apply lookup_delete_eq|].
  split; [done|]. split; [by intros ->|]. done.
Qed.

Lemma relay_error_is_not_replied_witness :
  let errored := parent_relay plain_puts starting_parent (new_relay 7%nat) (Error boom) in
  replies errored.2 = [] ∧ tunnel_sends errored.2 = [] ∧ tunnel_emits errored.2 = [] ∧
  instance_sends errored.2
  = [VObj [("message", VStr "boom"); ("stack", VStr "at x");
           ("status", VNum 500); ("type", VStr "error")]].
Proof.
  intros errored.
  destruct (relay_error_is_not_replied plain_puts starting_parent (new_relay 7%nat) boom
              eq_refl) as (_ & Hreplies & Hsends & Hemits & Hsend & _).
  split; [exact Hreplies|]. split; [exact Hsends|]. split; [exact Hemits|].
  apply Hsend. reflexivity.
Defined.
(** ** Graceful shutdown of the child *)

Lemma unsubscribe_config_fulfilled (this : t) (reply : outcome) :
  (unsubscribe_config this reply).2 = Fulfilled VUndefined.
Proof.
  unfold unsubscribe_config, appcd_call.
  destruct (truthy (configSubscriptionId this)); [|done].
  destruct (tunnel this); [destruct reply|]; done.
Qed.


(** The chain of the [deactivate] handler, by what the hook comes to. *)
Lemma on_deactivate_cases (this : t) (reply : outcome) :
  on_deactivate this reply
  = match module this ≫= deactivate with
    | None =>
        ((unsubscribe_config this reply).1
           ++ [Reply (new_Response codes_OK); ProcessExit 0],
         Fulfilled VUndefined)
    | Some (Fulfilled _) =>
        ((unsubscribe_config this reply).1
           ++ [ModuleDeactivate; Reply (new_Response codes_OK); ProcessExit 0],
         Fulfilled VUndefined)
    | Some (Rejected e) =>
        ((unsubscribe_config this reply).1 ++ [ModuleDeactivate], Rejected e)
    end.
Proof.
  pose proof (unsubscribe_config_fulfilled this reply) as Hunsub.
  unfold on_deactivate, resolved, then_, call_deactivate.
  destruct (unsubscribe_config this reply) as [out settled].
  simpl in *. subst settled.
  destruct (module this) as [[[[v|e]|]]|]; simpl;
    rewrite <- ?app_assoc, ?app_nil_r; done.
Qed.

(** C6, as the code has it: on a [deactivate] message the child first, when
    it holds a configuration subscription id, asks the parent to unsubscribe
    from the configuration; a rejection of that request, or the absence of a
    tunnel, is logged as a warning and the step is fulfilled all the same.
    Then the [deactivate] hook of the plugin module is called if the module
    defines one.  If there is no hook or the hook is fulfilled, the success
    response is sent and the process then exits with code 0, and nothing
    follows; if the hook throws or rejects, the chain is rejected with its
    error after the call: no response is sent and the process does not
    exit. *)
Theorem deactivate_shutdown_sequence (this : t) (reply : outcome) :
  let unsub := unsubscribe_config this reply in
  let request :=
    VObj [("path", VStr "/appcd/config");
          ("data", VObj [("sid", configSubscriptionId this);
                         ("type", VStr "unsubscribe")])] in
  unsub.2 = Fulfilled VUndefined ∧
  (truthy (configSubscriptionId this) = false → unsub.1 = []) ∧
  (truthy (configSubscriptionId this) = true → tunnel this ≠ None →
     tunnel_sends unsub.1 = [request] ∧
     ∀ err, reply = Rejected err →
       unsub.1 = [TunnelSend request;
                  Logged LWarn (VStr "Failed to unsubscribe from config");
                  Logged LWarn err]) ∧
  match module this ≫= deactivate with
  | None =>
      on_deactivate this reply
      = (unsub.1 ++ [Reply (new_Response codes_OK); ProcessExit 0],
         Fulfilled VUndefined)
  | Some (Fulfilled _) =>
      on_deactivate this reply
      = (unsub.1 ++ [ModuleDeactivate; Reply (new_Response codes_OK); ProcessExit 0],
         Fulfilled VUndefined)
  | Some (Rejected e) =>
      on_deactivate this reply = (unsub.1 ++ [ModuleDeactivate], Rejected e)
  end.
Proof.
  intros unsub request.
  pose proof (unsubscribe_config_fulfilled this reply) as Hunsub.
  fold unsub in Hunsub.
  split; [done|]. split; [|split].
  - intros Hsid. subst unsub. unfold unsubscribe_config. by rewrite Hsid.
  - intros Hsid Htunnel. subst unsub. unfold unsubscribe_config, appcd_call.
    rewrite Hsid. destruct (tunnel this); [|done].
    split; [by destruct reply | by intros err ->].
  - rewrite on_deactivate_cases. fold unsub.
    by destruct (module this ≫= deactivate) as [[v|e]|].
Qed.

Lemma deactivate_shutdown_sequence_witness :
  (on_deactivate (running_child (Some (Fulfilled VUndefined))) (Rejected boom)).1
  = [TunnelSend (VObj [("path", VStr "/appcd/config");
                       ("data", VObj [("sid", VStr "cfg-1");
                                      ("type", VStr "unsubscribe")])]);
     Logged LWarn (VStr "Failed to unsubscribe from config");
     Logged LWarn boom;
     ModuleDeactivate;
     Reply (new_Response codes_OK);
     ProcessExit 0].
Proof.
  pose proof (deactivate_shutdown_sequence
                (running_child (Some (Fulfilled VUndefined))) (Rejected boom))
    as (_ & _ & _ & Hsequence).
  simpl in Hsequence. rewrite Hsequence. reflexivity.
Defined.

(** C6 fails as stated: the module's [deactivate] hook rejects; it has been
    called, no response is sent and the process does not exit. *)
Lemma deactivate_hook_rejects_counterexample :
  let out :=
    (on_deactivate (running_child (Some (Rejected boom))) (Fulfilled VUndefined)).1 in
  ModuleDeactivate ∈ out ∧ replies out = [] ∧ exits out = [].
Proof.
  vm_compute. split; [|done]. apply list_elem_of_further, list_elem_of_here.
Qed.

(** ** Activation failure in the child *)








(** ** The plugin descriptor *)

Lemma type_of_internal (pkgJson : value) :
  get (get pkgJson "appcd") "type" = VStr "internal" →
  PluginInfo.type_of pkgJson = PluginInfo.internal.
Proof.
  intros Htype. unfold PluginInfo.type_of, Js.and.
  destruct (get pkgJson "appcd") as [| | | | |fields]; try discriminate.
  simpl in *. by rewrite Htype.
Qed.

Lemma declared_node_truthy (pkgJson : value) :
  truthy (get (get pkgJson "engines") "node") = true →
  PluginInfo.declared_node pkgJson = get (get pkgJson "engines") "node".
Proof.
  intros Hnode. unfold PluginInfo.declared_node, Js.and.
  by destruct (get pkgJson "engines") as [| | | | |fields].
Qed.

(** C9: take a plugin directory whose manifest marks the plugin [internal]
    and declares a Node.js requirement that the version of the running
    Node.js does not satisfy.  The constructor never returns a descriptor for
    it; and when the checks made before the version check pass (the directory
    exists, the manifest has a name, the main file exists: it is a plugin),
    what it throws is the version-mismatch error, which names the requirement
    and the running version. *)
Theorem internal_plugin_version_mismatch (rt : PluginInfo.runtime) (dir : string)
  (pkgJson : value) :
  let required := get (get pkgJson "engines") "node" in
  PluginInfo.read_json rt (PluginInfo.path_join rt dir "package.json") = inr pkgJson →
  get (get pkgJson "appcd") "type" = VStr "internal" →
  truthy required = true →
  PluginInfo.satisfies rt (PluginInfo.process_version rt) required = false →
  (∀ d, PluginInfo.constructor rt dir ≠ Return d) ∧
  (PluginInfo.isDir rt dir = true →
   PluginInfo.isFile rt (PluginInfo.path_join rt dir "package.json") = true →
   truthy (get pkgJson "name") = true →
   PluginInfo.isFile rt
     (PluginInfo.expandPath rt dir (PluginInfo.mainFile_of pkgJson)) = true →
   PluginInfo.constructor rt dir
   = Throw (new_Error ("Internal plugin requires Node.js " +:+ to_string required
                       +:+ ", but core is currently running "
                       +:+ PluginInfo.process_version rt))).
Proof.
  intros required Hread Hinternal Hrequired Hunsatisfied.
  pose proof (type_of_internal _ Hinternal) as Htype.
  pose proof (declared_node_truthy _ Hrequired) as Hdeclared.
  fold required in Hdeclared.
  unfold PluginInfo.constructor. rewrite Hread.
  destruct pkgJson as [| | | | |fields]; try discriminate.
  rewrite Htype, Hdeclared, Hrequired, Hunsatisfied. simpl negb.
  split.
  - intros d.
    destruct (PluginInfo.isDir rt dir); simpl; [|done].
    destruct (PluginInfo.isFile rt (PluginInfo.path_join rt dir "package.json"));
      simpl; [|done].
    destruct (truthy (lookup_field "name" fields)); simpl; [|done].
    by destruct (PluginInfo.isFile rt _).
  - intros -> -> Hname ->. simpl in Hname. by rewrite Hname.
Qed.

Lemma internal_plugin_version_mismatch_witness :
  PluginInfo.constructor PluginInfo.sample_runtime "/plugins/foo"
  = Throw (new_Error
             "Internal plugin requires Node.js 6.x, but core is currently running v8.1.0").
Proof.
  apply (internal_plugin_version_mismatch PluginInfo.sample_runtime "/plugins/foo"
           PluginInfo.sample_manifest); reflexivity.
Defined.

(** * Further properties of the code *)

(** ** Objects and strings *)

Lemma lookup_set_field_eq (k : string) (x : value) (fs : list (string * value)) :
  lookup_field k (set_field k x fs) = x.
Proof.
  induction fs as [|[k' v] fs IH]; simpl.
  - by rewrite String.eqb_refl.
  - destruct (String.eqb k k') eqn:Hk; simpl; rewrite ?String.eqb_refl, ?Hk; done.
Qed.

Lemma lookup_set_field_ne (k k' : string) (x : value) (fs : list (string * value)) :
  k ≠ k' → lookup_field k' (set_field k x fs) = lookup_field k' fs.
Proof.
  intros Hne.
  assert (String.eqb k' k = false) as Hk by (apply String.eqb_neq; congruence).
  induction fs as [|[k0 v] fs IH]; simpl.
  - by rewrite Hk.
  - destruct (String.eqb k k0) eqn:Hk0; simpl.
    + apply String.eqb_eq in Hk0 as <-. by rewrite Hk.
    + by rewrite IH.
Qed.

Lemma substring_skip (s t : string) (m : nat) :
  String.substring (String.length s) m (s +:+ t) = String.substring 0 m t.
Proof. induction s as [|c s IH]; simpl; [done | exact IH]. Qed.

Lemma substring_all (t : string) : String.substring 0 (String.length t) t = t.
Proof. induction t as [|c t IH]; simpl; [done | by rewrite IH]. Qed.

Lemma length_append (s t : string) :
  String.length (s +:+ t) = (String.length s + String.length t)%nat.
Proof. induction s as [|c s IH]; simpl; [done | by rewrite IH]. Qed.

Lemma ends_with_append (suffix s : string) : ends_with suffix (s +:+ suffix) = true.
Proof.
  unfold ends_with. rewrite length_append.
  assert ((String.length suffix <=? String.length s + String.length suffix)%nat = true)
    as -> by (apply Nat.leb_le; lia).
  replace (String.length s + String.length suffix - String.length suffix)%nat
    with (String.length s) by lia.
  rewrite substring_skip, substring_all. apply String.eqb_refl.
Qed.

(** ** The plugin descriptor, continued *)

Lemma type_of_internal_iff (pkgJson : value) :
  PluginInfo.type_of pkgJson = PluginInfo.internal
  ↔ get (get pkgJson "appcd") "type" = VStr "internal".
Proof.
  split; [|apply type_of_internal].
  unfold PluginInfo.type_of, Js.and.
  destruct (truthy (get pkgJson "appcd")) eqn:Happcd.
  - simpl. destruct (is_str _ "internal") eqn:Htype; [|done].
    intros _. by apply is_str_true.
  - by rewrite Happcd.
Qed.

(** What a successful construction went through, shared by the properties
    below. *)
Lemma constructor_returns (rt : PluginInfo.runtime) (dir : string) (d : PluginInfo.t) :
  PluginInfo.constructor rt dir = Return d →
  ∃ pkgJson,
    PluginInfo.isDir rt dir = true ∧
    PluginInfo.isFile rt (PluginInfo.path_join rt dir "package.json") = true ∧
    PluginInfo.read_json rt (PluginInfo.path_join rt dir "package.json") = inr pkgJson ∧
    truthy (get pkgJson "name") = true ∧
    PluginInfo.isFile rt
      (PluginInfo.expandPath rt dir (PluginInfo.mainFile_of pkgJson)) = true ∧
    d = {| PluginInfo.path := dir;
           PluginInfo.name := get pkgJson "name";
           PluginInfo.version := get pkgJson "version";
           PluginInfo.id := to_string (get pkgJson "name") +:+ "@"
                            +:+ to_string (get pkgJson "version");
           PluginInfo.type := PluginInfo.type_of pkgJson;
           PluginInfo.nodeVersion :=
             if truthy (PluginInfo.declared_node pkgJson)
             then PluginInfo.declared_node pkgJson
             else VStr (PluginInfo.process_version rt);
           PluginInfo.pid := VNull |} ∧
    (truthy (PluginInfo.declared_node pkgJson) = true →
     PluginInfo.type_of pkgJson = PluginInfo.internal →
     PluginInfo.satisfies rt (PluginInfo.process_version rt)
       (PluginInfo.declared_node pkgJson) = true).
Proof.
  unfold PluginInfo.constructor.
  destruct (PluginInfo.isDir rt dir); simpl; [|done].
  destruct (PluginInfo.isFile rt (PluginInfo.path_join rt dir "package.json"));
    simpl; [|done].
  destruct (PluginInfo.read_json rt _) as [m|pkgJson]; [done|].
  intros Hreturn. exists pkgJson.
  assert (pkgJson ≠ VNull) as Hnull by (by intros ->).
  assert ((if negb (truthy (get pkgJson "name")) then
             Throw (new_Error ("Plugin package.json doesn't have a name: " +:+ dir))
           else
             if negb (PluginInfo.isFile rt
                        (PluginInfo.expandPath rt dir (PluginInfo.mainFile_of pkgJson)))
             then Throw (new_Error ("Unable to find main file: "
                                    +:+ to_string (PluginInfo.main_of pkgJson)))
             else
               if negb (truthy (PluginInfo.declared_node pkgJson)) then
                 Return {| PluginInfo.path := dir;
                           PluginInfo.name := get pkgJson "name";
                           PluginInfo.version := get pkgJson "version";
                           PluginInfo.id := to_string (get pkgJson "name") +:+ "@"
                                            +:+ to_string (get pkgJson "version");
                           PluginInfo.type := PluginInfo.type_of pkgJson;
                           PluginInfo.nodeVersion := VStr (PluginInfo.process_version rt);
                           PluginInfo.pid := VNull |}
               else
                 match PluginInfo.type_of pkgJson with
                 | PluginInfo.internal =>
                     if negb (PluginInfo.satisfies rt (PluginInfo.process_version rt)
                                (PluginInfo.declared_node pkgJson))
                     then Throw (PluginInfo.version_mismatch rt
                                   (PluginInfo.declared_node pkgJson))
                     else
                       Return {| PluginInfo.path := dir;
                                 PluginInfo.name := get pkgJson "name";
                                 PluginInfo.version := get pkgJson "version";
                                 PluginInfo.id := to_string (get pkgJson "name") +:+ "@"
                                                  +:+ to_string (get pkgJson "version");
                                 PluginInfo.type := PluginInfo.type_of pkgJson;
                                 PluginInfo.nodeVersion := PluginInfo.declared_node pkgJson;
                                 PluginInfo.pid := VNull |}
                 | PluginInfo.external =>
                     Return {| PluginInfo.path := dir;
                               PluginInfo.name := get pkgJson "name";
                               PluginInfo.version := get pkgJson "version";
                               PluginInfo.id := to_string (get pkgJson "name") +:+ "@"
                                                +:+ to_string (get pkgJson "version");
                               PluginInfo.type := PluginInfo.type_of pkgJson;
                               PluginInfo.nodeVersion := PluginInfo.declared_node pkgJson;
                               PluginInfo.pid := VNull |}
                 end) = Return d) as Hbody.
  { by destruct pkgJson. }
  clear Hreturn.
  destruct (truthy (get pkgJson "name")); simpl in Hbody; [|done].
  destruct (PluginInfo.isFile rt (PluginInfo.expandPath rt dir _)); simpl in Hbody; [|done].
  destruct (truthy (PluginInfo.declared_node pkgJson)); simpl in Hbody.
  - destruct (PluginInfo.type_of pkgJson).
    + destruct (PluginInfo.satisfies rt _ _); simpl in Hbody; [|done].
      injection Hbody as <-. done.
    + injection Hbody as <-. done.
  - injection Hbody as <-. done.
Qed.

(** X1: a descriptor is only ever returned for a directory that exists, whose
    [package.json] exists, parses and has a truthy name, and whose main file
    exists; the descriptor then carries the directory as path, the manifest's
    name and version, the identifier [name@version] and no process id. *)
Theorem constructed_descriptor_prerequisites (rt : PluginInfo.runtime) (dir : string)
  (d : PluginInfo.t) :
  PluginInfo.constructor rt dir = Return d →
  ∃ pkgJson,
    PluginInfo.isDir rt dir = true ∧
    PluginInfo.isFile rt (PluginInfo.path_join rt dir "package.json") = true ∧
    PluginInfo.read_json rt (PluginInfo.path_join rt dir "package.json") = inr pkgJson ∧
    truthy (get pkgJson "name") = true ∧
    PluginInfo.isFile rt
      (PluginInfo.expandPath rt dir (PluginInfo.mainFile_of pkgJson)) = true ∧
    PluginInfo.path d = dir ∧
    PluginInfo.name d = get pkgJson "name" ∧
    PluginInfo.version d = get pkgJson "version" ∧
    PluginInfo.id d
    = to_string (PluginInfo.name d) +:+ "@" +:+ to_string (PluginInfo.version d) ∧
    PluginInfo.pid d = VNull.
Proof.
  intros Hreturn.
  destruct (constructor_returns rt dir d Hreturn)
    as (pkgJson & Hdir & Hfile & Hread & Hname & Hmain & -> & _).
  exists pkgJson. by repeat split.
Qed.

Lemma constructed_descriptor_prerequisites_witness :
  ∃ d, PluginInfo.constructor PluginInfo.loadable_runtime "/plugins/foo" = Return d ∧
       PluginInfo.id d = "foo@1.0.0" ∧
       PluginInfo.isFile PluginInfo.loadable_runtime "/plugins/foo/lib/main.js" = true.
Proof.
  eexists. split; [reflexivity|].
  destruct (constructed_descriptor_prerequisites PluginInfo.loadable_runtime
              "/plugins/foo" _ eq_refl)
    as (pkgJson & _ & _ & Hread & _ & Hmain & _ & _ & _ & Hid & _).
  injection Hread as <-. split; [exact Hid | exact Hmain].
Defined.

(** X2: for every descriptor that is returned, the type is [internal] exactly
    when the manifest has [appcd.type === 'internal'], and it is exactly the
    internal descriptors that [unload()] refuses; the Node.js version of the
    descriptor is the declared [engines.node] when that is truthy and the
    version of the running Node.js otherwise; and an internal descriptor with
    a declared version is only returned if the running Node.js satisfies
    it. *)
Theorem constructed_descriptor_type_and_version (rt : PluginInfo.runtime)
  (dir : string) (d : PluginInfo.t) :
  PluginInfo.constructor rt dir = Return d →
  ∃ pkgJson,
    PluginInfo.read_json rt (PluginInfo.path_join rt dir "package.json") = inr pkgJson ∧
    let declared := Js.and (get pkgJson "engines") (get (get pkgJson "engines") "node") in
    (PluginInfo.type d = PluginInfo.internal
     ↔ get (get pkgJson "appcd") "type" = VStr "internal") ∧
    ((∃ e, PluginInfo.unload d = Throw e)
     ↔ get (get pkgJson "appcd") "type" = VStr "internal") ∧
    (truthy declared = false →
     PluginInfo.nodeVersion d = VStr (PluginInfo.process_version rt)) ∧
    (truthy declared = true →
     PluginInfo.nodeVersion d = declared ∧
     (PluginInfo.type d = PluginInfo.internal →
      PluginInfo.satisfies rt (PluginInfo.process_version rt) declared = true)).
Proof.
  intros Hreturn.
  destruct (constructor_returns rt dir d Hreturn)
    as (pkgJson & _ & _ & Hread & _ & _ & -> & Hsat).
  exists pkgJson. split; [done|]. simpl.
  fold (PluginInfo.declared_node pkgJson) in *.
  split; [apply type_of_internal_iff|]. split; [|split].
  - rewrite <- type_of_internal_iff. unfold PluginInfo.unload. simpl.
    destruct (PluginInfo.type_of pkgJson); split; try done.
    + intros _. by eexists.
    + by intros [e He].
  - by intros ->.
  - intros Hdeclared. rewrite Hdeclared. split; [done | by apply Hsat].
Qed.

Lemma constructed_descriptor_type_and_version_witness :
  ∃ d, PluginInfo.constructor PluginInfo.loadable_runtime "/plugins/foo" = Return d ∧
       PluginInfo.type d = PluginInfo.internal ∧
       PluginInfo.nodeVersion d = VStr "8.x".
Proof.
  eexists. split; [reflexivity|].
  destruct (constructed_descriptor_type_and_version PluginInfo.loadable_runtime
              "/plugins/foo" _ eq_refl)
    as (pkgJson & Hread & Htype & _ & _ & Hdeclared).
  injection Hread as <-. split.
  - apply Htype. reflexivity.
  - apply Hdeclared. reflexivity.
Defined.

(** X3: the [semver] test is only made for internal plugins: for a manifest
    that does not mark the plugin internal the constructor comes to the same
    result whatever the range test answers, so an external plugin keeps its
    declared Node.js version even when the running one does not satisfy
    it. *)
Theorem external_plugin_ignores_runtime_version (rt : PluginInfo.runtime)
  (dir : string) (pkgJson : value) (sat : string → value → bool) :
  PluginInfo.read_json rt (PluginInfo.path_join rt dir "package.json") = inr pkgJson →
  get (get pkgJson "appcd") "type" ≠ VStr "internal" →
  PluginInfo.constructor (PluginInfo.with_satisfies sat rt) dir
  = PluginInfo.constructor rt dir.
Proof.
  intros Hread Hexternal.
  assert (PluginInfo.type_of pkgJson = PluginInfo.external) as Htype.
  { destruct (PluginInfo.type_of pkgJson) eqn:Htype; [|done].
    by apply type_of_internal_iff in Htype. }
  unfold PluginInfo.constructor. simpl. rewrite Hread.
  destruct pkgJson; rewrite ?Htype; reflexivity.
Qed.

Lemma external_plugin_ignores_runtime_version_witness :
  let rt :=
    {| PluginInfo.isDir := λ _, true; PluginInfo.isFile := λ _, true;
       PluginInfo.read_json := λ _,
         inr (VObj [("name", VStr "bar"); ("engines", VObj [("node", VStr "6.x")])]);
       PluginInfo.path_join := λ a b, a +:+ "/" +:+ b;
       PluginInfo.expandPath := λ a b, a +:+ "/" +:+ b;
       PluginInfo.satisfies := λ _ _, false;
       PluginInfo.process_version := "v8.1.0" |} in
  PluginInfo.constructor (PluginInfo.with_satisfies (λ _ _, true) rt) "/plugins/bar"
  = PluginInfo.constructor rt "/plugins/bar".
Proof.
  intros rt.
  apply (external_plugin_ignores_runtime_version rt "/plugins/bar"
           (VObj [("name", VStr "bar"); ("engines", VObj [("node", VStr "6.x")])]));
    [reflexivity | discriminate].
Defined.

(** X4: the main file looked for always ends in [.js]: a [main] that already
    ends in [.js] is taken as it is, any other gets [.js] appended, and a
    manifest without a truthy [main] gives [index.js]. *)
Theorem main_file_always_js (pkgJson : value) :
  let main := to_string (PluginInfo.main_of pkgJson) in
  ends_with ".js" (PluginInfo.mainFile_of pkgJson) = true ∧
  (ends_with ".js" main = true → PluginInfo.mainFile_of pkgJson = main) ∧
  (ends_with ".js" main = false → PluginInfo.mainFile_of pkgJson = main +:+ ".js") ∧
  (truthy (get pkgJson "main") = false → PluginInfo.mainFile_of pkgJson = "index.js").
Proof.
  intros main. unfold PluginInfo.mainFile_of. fold main.
  split; [|split; [|split]].
  - destruct (ends_with ".js" main) eqn:Hjs; simpl; [done | apply ends_with_append].
  - by intros ->.
  - by intros ->.
  - intros Hmain. subst main. unfold PluginInfo.main_of, Js.or. by rewrite Hmain.
Qed.

Lemma main_file_always_js_witness :
  PluginInfo.mainFile_of (VObj [("main", VStr "lib/main")]) = "lib/main.js" ∧
  PluginInfo.mainFile_of (VObj [("name", VStr "foo")]) = "index.js".
Proof.
  split.
  - apply (main_file_always_js (VObj [("main", VStr "lib/main")])). reflexivity.
  - apply (main_file_always_js (VObj [("name", VStr "foo")])). reflexivity.
Defined.


(** ** The parent: activation, messages and process events *)

(** X5: an activation failure from end to end.  The child whose activation
    fails with an [err] that is not [null] or [undefined] emits one
    [activation_error] event and exits with status 6; the parent, in state
    [STARTING], that receives this event and then the exit with code 6 rejects
    the pending promise of [startParent] with an error that carries the
    message of [err], or the text [Failed to activate plugin (code 6)] when
    [err] has no truthy message, and the stack of [err] when it is truthy; the
    lifecycle is [STOPPED] and the exit code recorded. *)
Theorem activation_failure_end_to_end (logger_id : value) (this : t) (err : value) :
  state (info this) = STARTING →
  defined err →
  let event := activation_error err in
  let reported := parent_on_message logger_id this Pending event in
  let exited := on_exit reported.1.1 reported.1.2 (exit_data (VNum 6)) in
  tunnel_emits (activation (Rejected err)).1 = [event] ∧
  exits (activation (Rejected err)).1 = [6] ∧
  ∃ rejection,
    exited.1.2 = Settled (Rejected rejection) ∧
    state (info exited.1.1) = STOPPED ∧
    exitCode (info exited.1.1) = VNum 6 ∧
    (truthy (get err "message") = true →
     get rejection "message" = get err "message") ∧
    (truthy (get err "message") = false →
     get rejection "message" = VStr "Failed to activate plugin (code 6)") ∧
    (truthy (get err "stack") = true → get rejection "stack" = get err "stack").
Proof.
  intros Hstate Hdefined event reported exited.
  assert ((activation (Rejected err)).1
          = [Activate; Logged LError err; TunnelEmit event; ProcessExit 6]) as ->.
  { unfold activation, activation_failed. simpl. by rewrite Hdefined. }
  split; [reflexivity|]. split; [reflexivity|].
  subst exited reported event. unfold parent_on_message, on_exit, setState. simpl.
  rewrite Hstate.
  destruct (truthy (get err "message")) eqn:Hmessage; simpl;
    destruct (truthy (get err "stack")) eqn:Hstack; simpl;
    eexists; (split; [reflexivity|]); repeat split; done.
Qed.

Lemma activation_failure_end_to_end_witness :
  let reported :=
    parent_on_message VNull starting_parent Pending (activation_error boom) in
  ∃ rejection,
    (on_exit reported.1.1 reported.1.2 (exit_data (VNum 6))).1.2
    = Settled (Rejected rejection) ∧
    get rejection "message" = VStr "boom" ∧
    get rejection "stack" = VStr "at x".
Proof.
  intros reported.
  destruct (activation_failure_end_to_end VNull starting_parent boom eq_refl eq_refl)
    as (_ & _ & rejection & Hrejected & _ & _ & Hmessage & _ & Hstack).
  exists rejection. split; [exact Hrejected|].
  split; [by apply Hmessage | by apply Hstack].
Defined.

Lemma parent_step_settled (logger_id : value) (this : t) (o : outcome)
  (input : parent_input) :
  (parent_step logger_id this (Settled o) input).1.2 = Settled o.
Proof.
  destruct input as [req|data]; simpl.
  - unfold parent_on_message.
    destruct (on_unsubscribe this req) as [this' out].
    repeat case_match; done.
  - unfold on_process_data, on_exit, setState. repeat case_match; done.
Qed.

Lemma parent_run_settled (logger_id : value) (this : t) (o : outcome)
  (inputs : list parent_input) :
  (parent_run logger_id this (Settled o) inputs).1.2 = Settled o.
Proof.
  revert this. induction inputs as [|input rest IH]; intros this; [done|].
  simpl. pose proof (parent_step_settled logger_id this o input) as Hstep.
  destruct (parent_step logger_id this (Settled o) input) as [[this1 started1] out1].
  simpl in Hstep. subst started1. specialize (IH this1).
  by destruct (parent_run logger_id this1 (Settled o) rest) as [[this2 started2] out2].
Qed.

(** X6: the promise of [startParent] is settled once.  Whatever messages of
    the child and events of its process follow, a promise that is settled
    keeps its outcome; in particular once [activated] has been received no
    later exit can reject the start, and once an exit has rejected it a late
    [activated] cannot resolve it. *)
Theorem start_promise_settles_once (logger_id : value) (this : t)
  (inputs : list parent_input) :
  (∀ o, (parent_run logger_id this (Settled o) inputs).1.2 = Settled o) ∧
  (∀ req,
     get req "type" = VStr "activated" →
     (parent_run logger_id this Pending (FromChild req :: inputs)).1.2
     = Settled (Fulfilled VUndefined)).
Proof.
  split; [intros o; apply parent_run_settled|].
  intros req Htype. simpl. unfold parent_on_message.
  rewrite (typed_defined _ _ Htype), Htype. simpl.
  pose proof (parent_run_settled logger_id this (Fulfilled VUndefined) inputs) as Hrun.
  by destruct (parent_run logger_id this _ inputs) as [[this2 started2] out2].
Qed.

Lemma start_promise_settles_once_witness :
  (parent_run VNull starting_parent Pending
     [FromChild (VObj [("type", VStr "activated")]);
      FromProcess (exit_data (VNum 1))]).1.2
  = Settled (Fulfilled VUndefined).
Proof.
  apply (start_promise_settles_once VNull starting_parent
           [FromProcess (exit_data (VNum 1))]).
  reflexivity.
Defined.

(** X7: what the handler of the parent's tunnel does itself with a message
    of the child, that is up to the call of the dispatcher it makes for a
    request.  Whatever the message, it leaves the tunnel, the watchers, the
    lifecycle state, the process id and the exit code as they are, gives
    nothing to the reply callback and does not exit; only [activated] touches
    the promise of [startParent]; only [unsubscribe] touches the stream
    registry, and it adds no registration and keeps the prototype.  For a
    request with a message the handler only calls the dispatcher: its answer,
    and with it the registration of a stream, comes later, from the relay. *)
Theorem child_messages_leave_process_state (logger_id : value) (this : t)
  (started : promise) (req : value) :
  let after := parent_on_message logger_id this started req in
  tunnel after.1.1 = tunnel this ∧
  watchers after.1.1 = watchers this ∧
  state (info after.1.1) = state (info this) ∧
  pid (info after.1.1) = pid (info this) ∧
  exitCode (info after.1.1) = exitCode (info this) ∧
  replies after.2 = [] ∧
  exits after.2 = [] ∧
  (get req "type" ≠ VStr "activated" → after.1.2 = started) ∧
  (get req "type" ≠ VStr "unsubscribe" → streams after.1.1 = streams this) ∧
  (∀ k r, own (streams after.1.1) !! k = Some r → own (streams this) !! k = Some r) ∧
  proto (streams after.1.1) = proto (streams this) ∧
  (get req "type" ∉ [VStr "activated"; VStr "activation_error"; VStr "log";
                     VStr "stats"; VStr "unsubscribe"] →
   truthy (get req "id") = true → defined (get req "message") →
   after = (this, started,
            [DispatcherCall (get (get req "message") "path")
               (get (get req "message") "data")])).
Proof.
  unfold parent_on_message, on_unsubscribe, defined.
  destruct (nullish req) eqn:Hreq.
  { simpl. repeat split; try done. by destruct req. }
  destruct (is_str (get req "type") "activated") eqn:Hactivated.
  { apply is_str_true in Hactivated. simpl. repeat split; try done.
    intros Hnot. exfalso. apply Hnot. rewrite Hactivated. apply list_elem_of_here. }
  destruct (is_str (get req "type") "activation_error") eqn:Herror.
  { apply is_str_true in Herror. simpl. repeat split; try done.
    intros Hnot. exfalso. apply Hnot. rewrite Herror.
    apply list_elem_of_further, list_elem_of_here. }
  destruct (is_str (get req "type") "log") eqn:Hlog.
  { apply is_str_true in Hlog.
    assert (get req "type" ∈ [VStr "activated"; VStr "activation_error"; VStr "log";
                              VStr "stats"; VStr "unsubscribe"]) as Hin.
    { rewrite Hlog. do 2 apply list_elem_of_further. apply list_elem_of_here. }
    destruct (get req "message"); simpl; by repeat split. }
  destruct (is_str (get req "type") "stats") eqn:Hstats.
  { apply is_str_true in Hstats. simpl. repeat split; try done.
    intros Hnot. exfalso. apply Hnot. rewrite Hstats.
    do 3 apply list_elem_of_further. apply list_elem_of_here. }
  destruct (is_str (get req "type") "unsubscribe") eqn:Hunsubscribe.
  - apply is_str_true in Hunsubscribe.
    assert (get req "type" ∈ [VStr "activated"; VStr "activation_error"; VStr "log";
                              VStr "stats"; VStr "unsubscribe"]) as Hin.
    { rewrite Hunsubscribe. do 4 apply list_elem_of_further. apply list_elem_of_here. }
    destruct (lookup_stream (streams this) (to_string (get req "sid")))
      as [r|[|r]| |r k|] eqn:Hreg; simpl; repeat split; try done.
    intros k r' Hk. apply lookup_delete_Some in Hk. tauto.
  - destruct (truthy (get req "id")); [|simpl; by repeat split].
    destruct (nullish (get req "message")) eqn:Hmessage; simpl; by repeat split.
Qed.

Lemma child_messages_leave_process_state_witness :
  let request :=
    VObj [("id", VNum 3);
          ("message", VObj [("path", VStr "/appcd/status"); ("data", VNull)])] in
  parent_on_message VNull starting_parent Pending request
  = (starting_parent, Pending, [DispatcherCall (VStr "/appcd/status") VNull]).
Proof.
  intros request.
  destruct (child_messages_leave_process_state VNull starting_parent Pending request)
    as (_ & _ & _ & _ & _ & _ & _ & _ & _ & _ & _ & Hrequest).
  apply Hrequest; [|reflexivity|reflexivity].
  vm_compute. intros Hin. apply list_elem_of_In in Hin. simpl in Hin.
  intuition discriminate.
Defined.

(** X8: the exit code after a spawn.  The [spawn] event records the process
    id and resets the exit code to [null]; the [exit] event that follows
    clears the process id and records the code only when it is truthy: after
    a clean exit, with code 0, the exit code is [null], not 0. *)
Theorem exit_code_after_spawn (this : t) (started : promise) (spawned exited : value) :
  get spawned "type" = VStr "spawn" →
  get exited "type" = VStr "exit" →
  let running := on_process_data this started spawned in
  let stopped := on_process_data running.1.1 running.1.2 exited in
  pid (info running.1.1) = get spawned "pid" ∧
  exitCode (info running.1.1) = VNull ∧
  pid (info stopped.1.1) = VNull ∧
  exitCode (info stopped.1.1)
  = (if truthy (get exited "code") then get exited "code" else VNull).
Proof.
  intros Hspawn Hexit. unfold on_process_data.
  rewrite (typed_defined _ _ Hspawn), (typed_defined _ _ Hexit), Hspawn, Hexit. simpl.
  unfold on_exit, setState. simpl.
  destruct (truthy (get exited "code")); [|done].
  destruct (state (info this)); simpl; try done.
  by destruct (truthy (error (info this))).
Qed.

Lemma exit_code_after_spawn_witness :
  let running :=
    on_process_data starting_parent Pending
      (VObj [("type", VStr "spawn"); ("pid", VNum 77)]) in
  exitCode (info (on_process_data running.1.1 running.1.2 (exit_data (VNum 0))).1.1)
  = VNull.
Proof.
  intros running.
  apply (exit_code_after_spawn starting_parent Pending
           (VObj [("type", VStr "spawn"); ("pid", VNum 77)]) (exit_data (VNum 0)));
    reflexivity.
Defined.

(** X9: after the child has exited the instance has no tunnel, whatever the
    state and the exit code were: [dispatch] hands every request to [next()]
    and writes nothing, [globals.appcd.call] rejects, and [onStop] throws
    instead of sending [deactivate].  With a tunnel [onStop] sends exactly the
    [deactivate] message. *)
Theorem no_tunnel_after_exit (this : t) (started : promise) (data : value)
  (ctx : ctx_t) (path payload : value) (reply : outcome) :
  let dead := (on_exit this started data).1.1 in
  dispatch dead ctx reply = (Next, []) ∧
  appcd_call dead path payload reply
  = (Rejected (new_Error "Tunnel not initialized!"), []) ∧
  (∃ e, onStop_on dead = Throw e) ∧
  (tunnel this ≠ None →
   onStop_on this = Return [TunnelSend (VObj [("type", VStr "deactivate")])]).
Proof.
  intros dead.
  destruct (on_exit_always this started data) as (Htunnel & _).
  fold dead in Htunnel.
  unfold dispatch, appcd_call, onStop_on. rewrite Htunnel.
  repeat split; [by eexists|].
  intros Hsome. by destruct (tunnel this).
Qed.

Lemma no_tunnel_after_exit_witness :
  onStop_on starting_parent = Return [TunnelSend (VObj [("type", VStr "deactivate")])].
Proof.
  apply (no_tunnel_after_exit starting_parent Pending (exit_data (VNum 0))
           {| ctx_path := VStr "/"; ctx_request := VNull; ctx_type := VNull;
              ctx_status := VNull; ctx_response := VNull |}
           VNull VNull (Fulfilled VNull)).
  discriminate.
Defined.

(** ** The stream relay, continued *)

Lemma instance_sends_on_stream_error (err : value) :
  (length (instance_sends (on_stream_error err)) ≤ 1)%nat.
Proof. unfold on_stream_error. destruct (nullish err); simpl; lia. Qed.

Lemma data_items_cons (ev : stream_event) (evs : list stream_event) :
  data_items (ev :: evs)
  = match ev with Data m => m :: data_items evs | _ => data_items evs end.
Proof. by destruct ev. Qed.

(** Upper bounds, for every list of events. *)
Lemma parent_relay_run_bounds (puts : stream → string → put) (this : t) (rl : relay)
  (evs : list stream_event) :
  let out := (parent_relay_run puts this rl evs).2 in
  (length (instance_sends out) ≤ if error_armed rl then 1 else 0)%nat ∧
  (length (replies out) ≤ length (data_items evs) + if end_armed rl then 1 else 0)%nat.
Proof.
  revert this rl. induction evs as [|ev evs IH]; intros this rl.
  { simpl. split; destruct (error_armed rl), (end_armed rl); simpl; lia. }
  cbn [parent_relay_run].
  destruct (parent_relay puts this rl ev) as [[this1 rl1] out1] eqn:Hstep.
  specialize (IH this1 rl1).
  destruct (parent_relay_run puts this1 rl1 evs) as [[this2 rl2] out2].
  cbn [snd] in *. rewrite replies_app, instance_sends_app, !length_app.
  destruct IH as (IHerr & IHhigh).
  rewrite data_items_cons.
  destruct ev as [m| |err]; unfold parent_relay in Hstep.
  - destruct (nullish m); [injection Hstep as <- <- <-; simpl in *; split; lia|].
    destruct (is_str (get m "type") "subscribe");
      [destruct (assign_stream _ _ _ _)|];
      injection Hstep as <- <- <-; simpl in *; split; lia.
  - destruct (end_armed rl) eqn:Hend;
      [|injection Hstep as <- <- <-; rewrite Hend in *; simpl; split; lia].
    injection Hstep as <- <- <-. simpl in *.
    destruct (truthy (sid rl)); simpl; split; lia.
  - pose proof (instance_sends_on_stream_error err) as Hsend.
    pose proof (replies_on_stream_error err) as Hreply.
    set (body := on_stream_error err) in *. clearbody body.
    destruct (error_armed rl) eqn:Herror; injection Hstep as <- <- <-;
      cbn [error_armed end_armed error_fired] in *; rewrite ?Herror, ?Hreply in *;
      simpl; split; lia.
Qed.

Lemma child_relay_run_bounds (rl : relay) (evs : list stream_event) :
  let out := (child_relay_run rl evs).2 in
  (length (instance_sends out) ≤ if error_armed rl then 1 else 0)%nat ∧
  (length (replies out) ≤ length (data_items evs) + if end_armed rl then 1 else 0)%nat ∧
  (Forall defined (data_items evs) → length (data_items evs) ≤ length (replies out))%nat.
Proof.
  revert rl. induction evs as [|ev evs IH]; intros rl.
  { simpl. repeat split; destruct (error_armed rl), (end_armed rl); simpl; lia. }
  cbn [child_relay_run].
  destruct (child_relay rl ev) as [rl1 out1] eqn:Hstep.
  specialize (IH rl1).
  destruct (child_relay_run rl1 evs) as [rl2 out2].
  cbn [snd] in *. rewrite replies_app, instance_sends_app, !length_app.
  destruct IH as (IHerr & IHhigh & IHlow).
  rewrite data_items_cons.
  destruct ev as [m| |err].
  - destruct (nullish m) eqn:Hm.
    + unfold child_relay in Hstep. rewrite Hm in Hstep. injection Hstep as <- <-.
      simpl in *. repeat split; try lia.
      intros Hdefined. apply Forall_cons in Hdefined as [Hdefined _].
      unfold defined in Hdefined. congruence.
    + destruct (child_relay_data rl m Hm) as (f & _ & Hdata).
      rewrite Hdata in Hstep. injection Hstep as <- <-.
      assert (error_armed (if is_subscribe m then with_sid (get m "sid") rl else rl)
              = error_armed rl) as Herror by by destruct (is_subscribe m).
      assert (end_armed (if is_subscribe m then with_sid (get m "sid") rl else rl)
              = end_armed rl) as Hend by by destruct (is_subscribe m).
      rewrite Herror, Hend in *. simpl. repeat split; try lia.
      intros Hdefined. apply Forall_cons in Hdefined as [_ Hdefined].
      specialize (IHlow Hdefined). lia.
  - unfold child_relay in Hstep.
    destruct (end_armed rl) eqn:Hend; injection Hstep as <- <-;
      cbn [error_armed end_armed end_fired] in *; rewrite ?Hend in *;
      [destruct (truthy (sid rl))|]; simpl; repeat split; try lia;
      intros Hdefined; specialize (IHlow Hdefined); lia.
  - unfold child_relay in Hstep.
    pose proof (instance_sends_on_stream_error err) as Hsend.
    pose proof (replies_on_stream_error err) as Hreply.
    set (body := on_stream_error err) in *. clearbody body.
    destruct (error_armed rl) eqn:Herror; injection Hstep as <- <-;
      cbn [error_armed end_armed error_fired] in *; rewrite ?Herror, ?Hreply in *;
      simpl; repeat split; try lia;
      intros Hdefined; specialize (IHlow Hdefined); lia.
Qed.

(** The relay of the parent forwards the data items in order, each one as it
    is, when none of them makes the [data] listener throw. *)
Lemma parent_relay_run_order (puts : stream → string → put) (this : t) (rl : relay)
  (evs : list stream_event) :
  Forall defined (data_items evs) →
  never_refuses puts →
  data_items evs `sublist_of` replies (parent_relay_run puts this rl evs).2.
Proof.
  revert this rl. induction evs as [|ev evs IH]; intros this rl Hdefined Hputs;
    [done|].
  cbn [parent_relay_run]. rewrite data_items_cons in *.
  destruct ev as [m| |err].
  - apply Forall_cons in Hdefined as [Hm Hdefined].
    destruct (parent_relay_forwards puts this rl m Hm Hputs) as [this1 ->].
    specialize (IH this1 (if is_subscribe m then with_sid (get m "sid") rl else rl)
                  Hdefined Hputs).
    destruct (parent_relay_run puts this1 _ evs) as [[this2 rl2] out2].
    by apply sublist_skip.
  - unfold parent_relay. destruct (end_armed rl).
    + specialize (IH (with_streams (delete_stream (to_string (sid rl))) this)
                    (end_fired rl) Hdefined Hputs).
      destruct (parent_relay_run puts _ _ evs) as [[this2 rl2] out2].
      cbn [snd] in *. rewrite replies_app.
      destruct (truthy (sid rl)); simpl; [by apply sublist_cons | done].
    + specialize (IH this rl Hdefined Hputs).
      by destruct (parent_relay_run puts this rl evs) as [[this2 rl2] out2].
  - unfold parent_relay. destruct (error_armed rl).
    + specialize (IH (with_streams (delete_stream (to_string (sid rl))) this)
                    (error_fired rl) Hdefined Hputs).
      destruct (parent_relay_run puts _ _ evs) as [[this2 rl2] out2].
      cbn [snd] in *. by rewrite replies_app, replies_on_stream_error.
    + specialize (IH this rl Hdefined Hputs).
      by destruct (parent_relay_run puts this rl evs) as [[this2 rl2] out2].
Qed.

(** X10: whatever events a stream emits, in whatever order and however many
    times it ends or errors, each relay answers with at most one reply per
    data item and one reply more (the [fin]), and calls [this.send] at most
    once.  When no data item is [null] or [undefined], and in the parent no
    registration of the stream is refused, each relay answers with at least
    one reply per data item. *)
Theorem relay_output_bounds (puts : stream → string → put) (this : t) (r : stream)
  (evs : list stream_event) :
  let n := length (data_items evs) in
  let parent_out := (parent_relay_run puts this (new_relay r) evs).2 in
  let child_out := (child_relay_run (new_relay r) evs).2 in
  (length (replies parent_out) ≤ n + 1)%nat ∧
  (length (instance_sends parent_out) ≤ 1)%nat ∧
  (length (replies child_out) ≤ n + 1)%nat ∧
  (length (instance_sends child_out) ≤ 1)%nat ∧
  (Forall defined (data_items evs) →
   (n ≤ length (replies child_out))%nat ∧
   (never_refuses puts → (n ≤ length (replies parent_out))%nat)).
Proof.
  intros n parent_out child_out.
  destruct (parent_relay_run_bounds puts this (new_relay r) evs) as (? & ?).
  destruct (child_relay_run_bounds (new_relay r) evs) as (? & ? & Hlow).
  simpl in *. subst n parent_out child_out.
  repeat split; try lia.
  - by apply Hlow.
  - intros Hputs. apply sublist_length. by apply parent_relay_run_order.
Qed.

Lemma relay_output_bounds_witness :
  (2 ≤ length (replies (child_relay_run (new_relay 7%nat)
                          [Data subscribe_msg; Error boom; Data event_msg; End_]).2))%nat.
Proof.
  destruct (relay_output_bounds plain_puts starting_parent 7%nat
              [Data subscribe_msg; Error boom; Data event_msg; End_])
    as (_ & _ & _ & _ & Hlow).
  destruct Hlow as [Hchild _]; [repeat constructor | exact Hchild].
Defined.

Lemma registry_eq (a b : registry) : own a = own b → proto a = proto b → a = b.
Proof. destruct a, b. simpl. by intros -> ->. Qed.

Lemma lookup_stream_ext (a b : registry) (k : string) :
  own a !! k = own b !! k → proto a = proto b → lookup_stream a k = lookup_stream b k.
Proof. intros Hown Hproto. unfold lookup_stream. by rewrite Hown, Hproto. Qed.

(** X11: while a stream is live, after data items none of which is [null] or
    [undefined] and none of which announces the id [__proto__], on a registry
    that has its original prototype: the registry of the parent holds the
    stream, as an own property, under every id that an item of type
    [subscribe] has announced, also under ids announced before the last one;
    what the code reads under every other key is unchanged, and so is the
    prototype; the relay does not touch the tunnel, the watchers or the
    plugin's info. *)
Theorem registry_while_streaming (puts : stream → string → put) (this : t)
  (r : stream) (items : list value) :
  Forall defined items →
  proto (streams this) = ObjectPrototype →
  "__proto__" ∉ announced items →
  let live := (parent_relay_run puts this (new_relay r) (Data <$> items)).1.1 in
  (∀ m, m ∈ items → is_subscribe m = true →
        lookup_stream (streams live) (to_string (get m "sid")) = Registered r) ∧
  (∀ k, k ∉ announced items →
        lookup_stream (streams live) k = lookup_stream (streams this) k) ∧
  proto (streams live) = ObjectPrototype ∧
  tunnel live = tunnel this ∧ watchers live = watchers this ∧ info live = info this.
Proof.
  intros Hdefined Hproto Hkeys live.
  destruct (parent_relay_run_data puts this (new_relay r) items Hdefined Hproto Hkeys)
    as (live' & Hdata & Hlive & Hreg & Htunnel & Hwatchers & Hinfo).
  assert (live = live') as -> by (subst live; by rewrite Hdata).
  split; [|split; [|done]].
  - intros m Hin Hsub. apply lookup_stream_registered.
    rewrite Hreg, decide_True; [done|].
    unfold announced. apply (list_elem_of_fmap_2 (λ m, to_string (get m "sid"))).
    by apply list_elem_of_filter.
  - intros k Hk. apply lookup_stream_ext; [|congruence].
    by rewrite Hreg, decide_False.
Qed.

Lemma registry_while_streaming_witness :
  lookup_stream
    (streams (parent_relay_run plain_puts starting_parent (new_relay 7%nat)
                (Data <$> [subscribe_msg; event_msg])).1.1) "s1"
  = Registered 7%nat.
Proof.
  destruct (registry_while_streaming plain_puts starting_parent 7%nat
              [subscribe_msg; event_msg])
    as (Hannounced & _).
  - repeat constructor.
  - reflexivity.
  - vm_compute. intros Hin. apply list_elem_of_singleton in Hin. discriminate.
  - apply (Hannounced subscribe_msg).
    + apply list_elem_of_here.
    + reflexivity.
Defined.

Lemma parent_relay_run_terminated (puts : stream → string → put) (this : t)
  (r : stream) (items : list value) (terminal : stream_event) :
  Forall defined items →
  proto (streams this) = ObjectPrototype →
  "__proto__" ∉ announced items →
  terminal = End_ ∨ (∃ err, terminal = Error err) →
  let after :=
    (parent_relay_run puts this (new_relay r) ((Data <$> items) ++ [terminal])).1.1 in
  proto (streams after) = ObjectPrototype ∧
  ∀ k, own (streams after) !! k
       = if decide (k = to_string (captured items)) then None
         else if decide (k ∈ announced items) then Some r
         else own (streams this) !! k.
Proof.
  intros Hdefined Hproto Hkeys Hterminal after.
  destruct (parent_relay_run_ended puts this r items [terminal] Hdefined Hproto Hkeys)
    as (live & Hrun & Hlive & Hreg).
  assert (streams after = delete_stream (to_string (captured items)) (streams live))
    as ->.
  { subst after. rewrite Hrun. by destruct Hterminal as [->|[err ->]]. }
  split; [done|]. intros k. simpl.
  destruct (decide (k = to_string (captured items))) as [->|Hne].
  - apply lookup_delete_eq.
  - rewrite lookup_delete_ne by done. apply Hreg.
Qed.

(** X12: when a stream has ended or errored after its data items, under the
    conditions of X11: the registry of the parent has no own property under
    the id the relay held last, and the code reads [undefined] there unless
    the id names a member of [Object.prototype].  So a stream that announced
    the one id under which nothing was registered leaves the registry as it
    found it; but an id announced earlier than the last one stays registered
    to the finished stream, and a stream that never announced an id removes
    the entry under the key [undefined]. *)
Theorem registry_after_stream (puts : stream → string → put) (this : t) (r : stream)
  (items : list value) (terminal : stream_event) :
  Forall defined items →
  proto (streams this) = ObjectPrototype →
  "__proto__" ∉ announced items →
  terminal = End_ ∨ (∃ err, terminal = Error err) →
  let key := to_string (captured items) in
  let after :=
    (parent_relay_run puts this (new_relay r) ((Data <$> items) ++ [terminal])).1.1 in
  own (streams after) !! key = None ∧
  (ordinary key → lookup_stream (streams after) key = Unset) ∧
  (own (streams this) !! key = None → (∀ k, k ∈ announced items → k = key) →
   streams after = streams this) ∧
  (∀ k, k ∈ announced items → k ≠ key →
        lookup_stream (streams after) k = Registered r) ∧
  (announced items = [] → streams after = delete_stream "undefined" (streams this)).
Proof.
  intros Hdefined Hproto Hkeys Hterminal key after.
  destruct (parent_relay_run_terminated puts this r items terminal
              Hdefined Hproto Hkeys Hterminal) as (Hafter & Hreg).
  fold key after in Hafter, Hreg.
  assert (own (streams after) !! key = None) as Hgone
    by by rewrite Hreg, decide_True.
  split; [done|]. split; [|split; [|split]].
  - intros Hordinary. by apply lookup_stream_unset.
  - intros Hfree Hsingle. apply registry_eq; [|congruence].
    apply map_eq. intros k. rewrite Hreg.
    destruct (decide (k = key)) as [->|Hne]; [done|].
    rewrite decide_False; [done|]. intros Hin. by apply Hne, Hsingle.
  - intros k Hin Hne. apply lookup_stream_registered.
    by rewrite Hreg, decide_False, decide_True.
  - intros Hnone. apply registry_eq; [|simpl; congruence].
    apply map_eq. intros k. rewrite Hreg.
    assert (key = "undefined") as Hkey.
    { subst key. unfold captured. unfold announced in Hnone.
      apply fmap_nil_inv in Hnone. by rewrite Hnone. }
    rewrite Hkey, Hnone. cbn [own delete_stream].
    destruct (decide (k = "undefined")) as [->|Hne].
    + by rewrite lookup_delete_eq.
    + rewrite lookup_delete_ne by done. rewrite decide_False; [done|].
      apply not_elem_of_nil.
Qed.

Lemma registry_after_stream_witness :
  streams (parent_relay_run plain_puts starting_parent (new_relay 7%nat)
             ((Data <$> [subscribe_msg; event_msg]) ++ [End_])).1.1
  = streams starting_parent ∧
  lookup_stream
    (streams (parent_relay_run plain_puts starting_parent (new_relay 7%nat)
                ((Data <$> [subscribe_msg;
                            VObj [("type", VStr "subscribe"); ("sid", VStr "s2")]])
                 ++ [Error boom])).1.1) "s1"
  = Registered 7%nat.
Proof.
  split.
  - destruct (registry_after_stream plain_puts starting_parent 7%nat
                [subscribe_msg; event_msg] End_) as (_ & _ & Hrestored & _).
    + repeat constructor.
    + reflexivity.
    + vm_compute. intros Hin. apply list_elem_of_singleton in Hin. discriminate.
    + by left.
    + apply Hrestored; [reflexivity|].
      intros k Hk. vm_compute in Hk. apply list_elem_of_In in Hk.
      by destruct Hk as [<-|[]].
  - destruct (registry_after_stream plain_puts starting_parent 7%nat
                [subscribe_msg; VObj [("type", VStr "subscribe"); ("sid", VStr "s2")]]
                (Error boom))
      as (_ & _ & _ & Hleft & _).
    + repeat constructor.
    + reflexivity.
    + vm_compute. intros Hin. apply list_elem_of_In in Hin. simpl in Hin.
      intuition discriminate.
    + right. by exists boom.
    + apply Hleft.
      * vm_compute. apply list_elem_of_here.
      * discriminate.
Defined.

Lemma captured_key_announced (items : list value) :
  announced items ≠ [] → to_string (captured items) ∈ announced items.
Proof.
  intros Hne. apply last_Some_elem_of. unfold announced, captured in *.
  rewrite fmap_last.
  destruct (last (filter _ items)) as [m|] eqn:Hlast; [done|].
  apply last_None in Hlast. by rewrite Hlast in Hne.
Qed.

(** X13: an [unsubscribe] for the id of a live subscription stream, followed
    by the end of that stream, under the conditions of X11.  The unsubscribe
    ends exactly this stream and removes its registration; the [end] that
    follows leaves the registry as it is and still sends the [fin] for the
    id.  A second [unsubscribe] after that is without effect when the id
    names no member of [Object.prototype], and throws when it names one. *)
Theorem unsubscribe_then_end (puts : stream → string → put) (this : t) (r : stream)
  (items : list value) (req : value) :
  Forall defined items →
  proto (streams this) = ObjectPrototype →
  "__proto__" ∉ announced items →
  announced items ≠ [] →
  to_string (get req "sid") = to_string (captured items) →
  let live := parent_relay_run puts this (new_relay r) (Data <$> items) in
  let unsubscribed := on_unsubscribe live.1.1 req in
  let ended := parent_relay puts unsubscribed.1 live.1.2 End_ in
  unsubscribed.2 = [StreamEnd r] ∧
  own (streams unsubscribed.1) !! to_string (captured items) = None ∧
  streams ended.1.1 = streams unsubscribed.1 ∧
  ended.2 = (if truthy (captured items) then [Reply (fin (captured items))] else []) ∧
  (ordinary (to_string (captured items)) →
   on_unsubscribe ended.1.1 req = (ended.1.1, [])) ∧
  (to_string (captured items) ∈ Object_prototype_members →
   ∃ e, on_unsubscribe ended.1.1 req = (ended.1.1, [Thrown e])).
Proof.
  intros Hdefined Hproto Hkeys Hannounced Hkey live unsubscribed ended.
  destruct (parent_relay_run_data puts this (new_relay r) items Hdefined Hproto Hkeys)
    as (live' & Hdata & Hlive & Hreg & _).
  fold live in Hdata.
  specialize (Hreg (to_string (captured items))).
  rewrite decide_True in Hreg by by apply captured_key_announced.
  assert (unsubscribed
          = (with_streams (delete_stream (to_string (captured items))) live', [StreamEnd r]))
    as Hunsubscribed.
  { subst unsubscribed. rewrite Hdata. simpl. rewrite <- Hkey.
    apply on_unsubscribe_registered. by rewrite Hkey. }
  assert (ended.1.1 = with_streams (delete_stream (to_string (captured items))) live')
    as Hended.
  { subst ended. rewrite Hunsubscribed, Hdata. simpl. rewrite sid_after_captured.
    unfold with_streams, delete_stream. simpl. by rewrite delete_delete_eq. }
  split; [by rewrite Hunsubscribed|].
  split; [rewrite Hunsubscribed; apply lookup_delete_eq|].
  split; [by rewrite Hended, Hunsubscribed|].
  split.
  { subst ended. rewrite Hunsubscribed, Hdata. simpl. by rewrite sid_after_captured. }
  rewrite Hended. split.
  - intros Hordinary. apply on_unsubscribe_unknown; rewrite ?Hkey; simpl; try done.
    apply lookup_delete_eq.
  - intros Hmember. unfold on_unsubscribe. rewrite Hkey.
    destruct (lookup_stream_inherited
                (streams (with_streams (delete_stream (to_string (captured items))) live'))
                (to_string (captured items))) as [-> | ->]; simpl; eauto.
    + apply lookup_delete_eq.
    + by apply list_elem_of_further.
Qed.

Lemma unsubscribe_then_end_witness :
  let live :=
    parent_relay_run plain_puts starting_parent (new_relay 7%nat)
      (Data <$> [subscribe_msg; event_msg]) in
  let req := VObj [("type", VStr "unsubscribe"); ("sid", VStr "s1")] in
  (on_unsubscribe live.1.1 req).2 = [StreamEnd 7%nat] ∧
  (parent_relay plain_puts (on_unsubscribe live.1.1 req).1 live.1.2 End_).2
  = [Reply (fin (VStr "s1"))].
Proof.
  intros live req.
  destruct (unsubscribe_then_end plain_puts starting_parent 7%nat
              [subscribe_msg; event_msg] req)
    as (Hended & _ & _ & Hfin & _).
  - repeat constructor.
  - reflexivity.
  - vm_compute. intros Hin. apply list_elem_of_singleton in Hin. discriminate.
  - discriminate.
  - reflexivity.
  - split; [exact Hended | exact Hfin].
Defined.
(** ** Watchers and the spawn of the plugin host *)

Lemma watched_directories (ws : gmap string fswatcher) (directories : list string)
  (dir : string) :
  foldl (λ ws dir, <[dir := {| watched := dir |}]> ws) ws directories !! dir
  = if decide (dir ∈ directories) then Some {| watched := dir |} else ws !! dir.
Proof.
  revert ws. induction directories as [|d rest IH]; intros ws; cbn [foldl].
  { rewrite decide_False; [done | apply not_elem_of_nil]. }
  rewrite IH. destruct (decide (dir ∈ rest)) as [Hin|Hnotin].
  - rewrite decide_True; [done | by apply list_elem_of_further].
  - destruct (decide (dir = d)) as [->|Hne].
    + rewrite decide_True by apply list_elem_of_here. apply lookup_insert_eq.
    + rewrite decide_False by (apply not_elem_of_cons; done).
      by apply lookup_insert_ne.
Qed.

(** X14: the watchers wired after a spawn.  When the [autoReload] query fails,
    or answers a truthy value, every directory of the plugin gets a watcher
    and the watchers of other directories are kept; when it answers a falsy
    value nothing changes.  Whatever was wired, the exit of the child then
    closes the watcher of each of these directories and leaves none
    registered. *)
Theorem watchers_wired_then_closed (this : t) (reply : outcome)
  (directories : list string) (started : promise) (data : value) :
  let autoReload :=
    match reply with Fulfilled ctx => get ctx "response" | Rejected _ => VBool true end in
  let wired := wire_watchers this reply directories in
  let exited := on_exit wired started data in
  (truthy autoReload = true →
   (∀ dir, dir ∈ directories → watchers wired !! dir = Some {| watched := dir |}) ∧
   (∀ dir, dir ∉ directories → watchers wired !! dir = watchers this !! dir) ∧
   (∀ dir, dir ∈ directories → dir ∈ closed_dirs exited.2)) ∧
  (truthy autoReload = false → wired = this) ∧
  watchers exited.1.1 = ∅ ∧
  (∀ dir, dir ∈ closed_dirs exited.2 ↔ is_Some (watchers wired !! dir)).
Proof.
  intros autoReload wired exited.
  destruct (on_exit_always wired started data) as (_ & _ & Hempty & _ & Hclosed).
  fold exited in Hempty, Hclosed.
  assert (∀ dir, dir ∈ closed_dirs exited.2 ↔ is_Some (watchers wired !! dir))
    as Hall.
  { intros dir. rewrite Hclosed. apply elem_of_watched_dirs. }
  split; [|split; [|split; [exact Hempty | exact Hall]]].
  - intros Hreload.
    assert (∀ dir, watchers wired !! dir
                   = if decide (dir ∈ directories) then Some {| watched := dir |}
                     else watchers this !! dir) as Hwired.
    { intros dir. subst wired. unfold wire_watchers. fold autoReload.
      rewrite Hreload. simpl. apply watched_directories. }
    split; [|split].
    + intros dir Hin. by rewrite Hwired, decide_True.
    + intros dir Hnotin. by rewrite Hwired, decide_False.
    + intros dir Hin. apply Hall. rewrite Hwired, decide_True by done. by eexists.
  - intros Hreload. subst wired. unfold wire_watchers. fold autoReload.
    by rewrite Hreload.
Qed.

Lemma watchers_wired_then_closed_witness :
  let wired := wire_watchers starting_parent (Rejected VNull) ["/plugins/foo/src"] in
  watchers wired !! "/plugins/foo/src" = Some {| watched := "/plugins/foo/src" |} ∧
  "/plugins/foo/src" ∈ closed_dirs (on_exit wired Pending (exit_data (VNum 1))).2.
Proof.
  intros wired.
  destruct (watchers_wired_then_closed starting_parent (Rejected VNull)
              ["/plugins/foo/src"] Pending (exit_data (VNum 1)))
    as (Hwired & _).
  destruct (Hwired eq_refl) as (Hwatched & _ & Hclosed).
  split; [apply Hwatched | apply Hclosed]; apply list_elem_of_here.
Defined.

(** X15: the inspector port.  It is 9230 when [INSPECT_PLUGIN_PORT] is
    unset, empty or not a number, and otherwise the larger of the number and
    1024, never a number below 1024; a numeral too long for a number gives
    the port [Infinity].  The arguments of the plugin host always end with
    the path of the plugin, after the host script, and the inspector flag
    comes first exactly when [INSPECT_PLUGIN] is the name of the plugin; the
    flag carries the port as a template literal prints it, which is in
    decimal digits for a port below [10^21]. *)
Theorem spawn_args_shape (parseInt : string → number) (print : Z → string)
  (INSPECT_PLUGIN INSPECT_PLUGIN_PORT : value)
  (plugin_host plugin_name plugin_path : string) :
  let port := debugPort parseInt INSPECT_PLUGIN_PORT in
  let parsed := parseInt (to_string INSPECT_PLUGIN_PORT) in
  let args :=
    spawn_args parseInt print INSPECT_PLUGIN INSPECT_PLUGIN_PORT plugin_host
      plugin_name plugin_path in
  (port = Infinity ∨ ∃ n, port = Int n ∧ 1024 ≤ n) ∧
  (truthy INSPECT_PLUGIN_PORT = false → port = Int 9230) ∧
  (parsed = NaN → port = Int 9230) ∧
  (∀ n, truthy INSPECT_PLUGIN_PORT = true → parsed = Int n → port = Int (Z.max n 1024)) ∧
  (truthy INSPECT_PLUGIN_PORT = true → parsed = Infinity → port = Infinity) ∧
  (truthy INSPECT_PLUGIN_PORT = true → parsed = NegInfinity → port = Int 1024) ∧
  last args = Some plugin_path ∧
  (INSPECT_PLUGIN = VStr plugin_name →
   args = ["--inspect-brk=" +:+ number_text print port; plugin_host; plugin_path]) ∧
  (INSPECT_PLUGIN ≠ VStr plugin_name → args = [plugin_host; plugin_path]) ∧
  (∀ n, (∀ m, 0 ≤ m < 10 ^ 21 → print m = pretty m) →
        port = Int n → n < 10 ^ 21 →
        number_text print port = pretty n).
Proof.
  intros port parsed args. subst port parsed args. unfold spawn_args, debugPort.
  assert (∀ n, or_9230 (max_1024 (Int n)) = Int (Z.max n 1024)) as Hmax.
  { intros n. simpl. destruct (Z.max n 1024) eqn:Hn; [lia | done | done]. }
  assert ((if truthy INSPECT_PLUGIN_PORT
           then or_9230 (max_1024 (parseInt (to_string INSPECT_PLUGIN_PORT)))
           else Int 9230) = Infinity
          ∨ ∃ n, (if truthy INSPECT_PLUGIN_PORT
                  then or_9230 (max_1024 (parseInt (to_string INSPECT_PLUGIN_PORT)))
                  else Int 9230) = Int n ∧ 1024 ≤ n) as Hport.
  { destruct (truthy INSPECT_PLUGIN_PORT); [|right; exists 9230; split; [done | lia]].
    destruct (parseInt _) as [|n| |].
    - right. exists 9230. split; [done | lia].
    - right. exists (Z.max n 1024). split; [apply Hmax | lia].
    - by left.
    - right. exists 1024. split; [done | lia]. }
  split; [exact Hport|].
  split; [by intros ->|].
  split; [intros ->; by destruct (truthy INSPECT_PLUGIN_PORT)|].
  split; [intros n -> ->; apply Hmax|].
  split; [by intros -> ->|].
  split; [by intros -> ->|].
  split; [by destruct (is_str INSPECT_PLUGIN plugin_name)|].
  split; [intros Hname; apply is_str_true in Hname; by rewrite Hname|].
  split.
  - intros Hname. destruct (is_str INSPECT_PLUGIN plugin_name) eqn:Hstr; [|done].
    by apply is_str_true in Hstr.
  - intros n Hprint Hn Hsmall. rewrite Hn. simpl. apply Hprint.
    destruct Hport as [Hinf | (k & Hk & Hlow)]; [congruence|].
    assert (k = n) as -> by congruence. lia.
Qed.

Lemma spawn_args_shape_witness :
  spawn_args (λ s, if String.eqb s "80" then Int 80 else NaN) pretty
    (VStr "foo") (VStr "80") "bin/appcd-plugin-host" "foo" "/plugins/foo"
  = ["--inspect-brk=1024"; "bin/appcd-plugin-host"; "/plugins/foo"].
Proof.
  destruct (spawn_args_shape (λ s, if String.eqb s "80" then Int 80 else NaN) pretty
              (VStr "foo") (VStr "80") "bin/appcd-plugin-host" "foo" "/plugins/foo")
    as (_ & _ & _ & _ & _ & _ & _ & Hdebug & _).
  rewrite (Hdebug eq_refl). reflexivity.
Defined.

Lemma lookup_Object_assign (target source : list (string * value)) (k : string) :
  NoDup source.*1 →
  lookup_field k (Object_assign target source)
  = if decide (k ∈ source.*1) then lookup_field k source else lookup_field k target.
Proof.
  unfold Object_assign. revert target.
  induction source as [|[k0 v0] rest IH]; intros target Hnodup; cbn [foldl].
  { rewrite decide_False; [done | apply not_elem_of_nil]. }
  rewrite fmap_cons in *. apply NoDup_cons in Hnodup as [Hfresh Hnodup].
  rewrite (IH _ Hnodup). cbn [fst snd lookup_field].
  destruct (decide (k = k0)) as [->|Hne].
  - rewrite decide_False by done.
    rewrite decide_True by apply list_elem_of_here.
    by rewrite lookup_set_field_eq, String.eqb_refl.
  - assert (String.eqb k k0 = false) as -> by by apply String.eqb_neq.
    destruct (decide (k ∈ rest.*1)) as [Hin|Hnotin].
    + rewrite decide_True; [done | by apply list_elem_of_further].
    + rewrite decide_False by (apply not_elem_of_cons; done).
      apply lookup_set_field_ne. congruence.
Qed.

(** X16: the environment given to the plugin host is the environment of the
    daemon together with [FORCE_COLOR]: every variable of [process.env] is
    passed with its value, [FORCE_COLOR] is 1 unless [process.env] sets it, and
    no other variable is defined. *)
Theorem spawn_env_inherits (process_env : list (string * value)) :
  NoDup process_env.*1 →
  let env := spawn_env process_env in
  (∀ k, k ∈ process_env.*1 → lookup_field k env = lookup_field k process_env) ∧
  ("FORCE_COLOR" ∉ process_env.*1 → lookup_field "FORCE_COLOR" env = VNum 1) ∧
  (∀ k, k ∉ process_env.*1 → k ≠ "FORCE_COLOR" → lookup_field k env = VUndefined).
Proof.
  intros Hnodup env. subst env. unfold spawn_env.
  split; [|split].
  - intros k Hin. by rewrite lookup_Object_assign, decide_True.
  - intros Hnotin. by rewrite lookup_Object_assign, decide_False.
  - intros k Hnotin Hne. rewrite lookup_Object_assign, decide_False by done.
    simpl. by assert (String.eqb k "FORCE_COLOR" = false) as ->
      by by apply String.eqb_neq.
Qed.

Lemma spawn_env_inherits_witness :
  lookup_field "PATH" (spawn_env [("PATH", VStr "/usr/bin"); ("FORCE_COLOR", VStr "0")])
  = VStr "/usr/bin" ∧
  lookup_field "FORCE_COLOR" (spawn_env [("PATH", VStr "/usr/bin")]) = VNum 1.
Proof.
  split.
  - destruct (spawn_env_inherits [("PATH", VStr "/usr/bin"); ("FORCE_COLOR", VStr "0")])
      as (Hinherited & _).
    { change (NoDup ["PATH"; "FORCE_COLOR"]).
      apply NoDup_cons. split; [|apply NoDup_singleton].
      rewrite list_elem_of_singleton. discriminate. }
    rewrite Hinherited; [reflexivity | apply list_elem_of_here].
  - destruct (spawn_env_inherits [("PATH", VStr "/usr/bin")]) as (_ & Hdefault & _).
    { apply NoDup_singleton. }
    apply Hdefault. change ("FORCE_COLOR" ∉ ["PATH"]).
    rewrite list_elem_of_singleton. discriminate.
Defined.

(** ** The child: forwarding, configuration and the patched dispatcher *)

(** X17: what the relay of the child does with a data item, where [held] is
    the subscription id it holds once the item is seen.  For an item that is
    not [null] or [undefined] it replies with one message: every property of
    an object item other than [type] is forwarded unchanged; an item that is
    not an object is forwarded as the [message] of a new object; and the
    [type] forwarded is the item's own when that is truthy, else [event] when
    a subscription id is held, else [undefined].  On an item that is [null]
    or [undefined] the listener throws: it replies nothing and the relay is
    as before. *)
Theorem child_forward_keeps_item (rl : relay) (message : value) :
  let held := if is_subscribe message then get message "sid" else sid rl in
  let after := child_relay rl (Data message) in
  (defined message →
   ∃ forwarded,
     child_forward held message = Return forwarded ∧
     after.2 = [Reply forwarded] ∧
     sid after.1 = held ∧
     (typeof_object message = true →
      ∀ k, k ≠ "type" → get forwarded k = get message k) ∧
     (typeof_object message = false → get forwarded "message" = message) ∧
     (truthy (get message "type") = true → get forwarded "type" = get message "type") ∧
     (truthy (get message "type") = false → truthy held = true →
      get forwarded "type" = VStr "event") ∧
     (truthy (get message "type") = false → truthy held = false →
      get forwarded "type" = VUndefined)) ∧
  (nullish message = true →
   (∃ e, child_forward held message = Throw e) ∧
   ∃ e, after = (rl, [Thrown e])).
Proof.
  intros held after. split.
  - intros Hdefined.
    destruct (child_relay_data rl message Hdefined) as (forwarded & Hforwarded & Hrelay).
    fold held in Hforwarded. fold after in Hrelay.
    exists forwarded. split; [done|]. split; [by rewrite Hrelay|].
    split; [rewrite Hrelay; subst held; by destruct (is_subscribe message)|].
    unfold child_forward in Hforwarded. rewrite Hdefined in Hforwarded.
    assert (get forwarded "type"
            = Js.or (get message "type")
                (if truthy held then VStr "event" else VUndefined)) as Htype.
    { destruct (typeof_object message); injection Hforwarded as <-; simpl; [|done].
      apply lookup_set_field_eq. }
    split; [|split; [|split; [|split]]].
    + intros Hobject k Hk. rewrite Hobject in Hforwarded. injection Hforwarded as <-.
      simpl. rewrite lookup_set_field_ne by congruence. by destruct message.
    + intros Hobject. rewrite Hobject in Hforwarded. by injection Hforwarded as <-.
    + intros Htruthy. rewrite Htype. unfold Js.or. by rewrite Htruthy.
    + intros Hfalsy Hsid. rewrite Htype. unfold Js.or. by rewrite Hfalsy, Hsid.
    + intros Hfalsy Hsid. rewrite Htype. unfold Js.or. by rewrite Hfalsy, Hsid.
  - intros Hnull. subst after. unfold child_forward, child_relay. rewrite Hnull.
    split; by eexists.
Qed.

Lemma child_forward_keeps_item_witness :
  (child_relay (with_sid (VStr "s1") (new_relay 7%nat))
     (Data (VObj [("message", VNum 1); ("sid", VStr "s1")]))).2
  = [Reply (VObj [("message", VNum 1); ("sid", VStr "s1"); ("type", VStr "event")])].
Proof.
  destruct (child_forward_keeps_item (with_sid (VStr "s1") (new_relay 7%nat))
              (VObj [("message", VNum 1); ("sid", VStr "s1")])) as [Hdefined _].
  destruct (Hdefined eq_refl) as (forwarded & Hforwarded & Hreply & _).
  injection Hforwarded as <-. exact Hreply.
Defined.

Lemma thrown_app (a b : list effect) : thrown (a ++ b) = thrown a ++ thrown b.
Proof. apply omap_app. Qed.

(** The listener on an event that carries a message. *)
Lemma on_config_data_event (this : t) (ev : value) :
  is_str (get ev "type") "event" = true → defined (get ev "message") →
  ∃ out,
    thrown out = [] ∧
    on_config_data this ev
    = (with_config (get ev "message") (get ev "sid") this, out, true).
Proof.
  intros Hevent Hmessage. unfold on_config_data.
  assert (nullish ev = false) as -> by (by destruct ev).
  rewrite Hevent. simpl. rewrite Hmessage.
  eexists. split; [|reflexivity]. by case_match.
Qed.

Lemma on_config_events_last (this : t) (initialized : bool) (events : list value) :
  let is_event := λ ev, is_str (get ev "type") "event" = true in
  Forall defined events →
  (∀ ev, ev ∈ events → is_event ev → defined (get ev "message")) →
  ∃ out,
    thrown out = [] ∧
    on_config_events this initialized events
    = match last (filter is_event events) with
      | Some ev => (with_config (get ev "message") (get ev "sid") this, out, true)
      | None => (this, out, initialized)
      end.
Proof.
  intros is_event. revert this initialized.
  induction events as [|ev rest IH]; intros this initialized Hdefined Hmessages.
  { by exists []. }
  apply Forall_cons in Hdefined as [Hev Hrest].
  cbn [on_config_events]. rewrite filter_cons.
  destruct (decide (is_event ev)) as [Hevent|Hevent].
  - destruct (on_config_data_event this ev Hevent) as (out1 & Hout1 & ->).
    { apply Hmessages; [apply list_elem_of_here | done]. }
    destruct (IH (with_config (get ev "message") (get ev "sid") this)
                (initialized || true) Hrest) as (out2 & Hout2 & ->).
    { intros ev' Hin. apply Hmessages. by apply list_elem_of_further. }
    exists (out1 ++ out2). split; [by rewrite thrown_app, Hout1, Hout2|].
    rewrite last_cons.
    destruct (last (filter is_event rest)); [done|]. by rewrite orb_true_r.
  - apply not_true_is_false in Hevent.
    assert (on_config_data this ev = (this, [], false)) as ->.
    { unfold on_config_data. unfold defined in Hev. by rewrite Hev, Hevent. }
    destruct (IH this (initialized || false) Hrest) as (out2 & Hout2 & ->).
    { intros ev' Hin. apply Hmessages. by apply list_elem_of_further. }
    exists out2. split; [done|]. simpl.
    destruct (last (filter is_event rest)); [done|]. by rewrite orb_false_r.
Qed.

(** X18: the configuration stream in the child.  Take messages none of which
    is [null] or [undefined] and whose events carry a message.  Only the
    messages of type [event] count: the startup chain goes on exactly when
    one has arrived, the configuration and the subscription id held are those
    of the last of them, without any the instance is unchanged, and the
    listener never throws.  An event without a message is stored and then
    makes the listener throw before the chain is let go.  When the
    subscription request is rejected, the chain goes on at once with the
    instance unchanged; when it is fulfilled with [null] or [undefined], or
    with a response that is no stream, the chain fails, and [startChild]
    reports the failure as an activation failure without having called the
    activation. *)
Theorem config_events_seed_child (this : t) (events : list value) :
  let is_event := λ ev, is_str (get ev "type") "event" = true in
  let seeded := on_config_events this false events in
  Forall defined events →
  (∀ ev, ev ∈ events → is_event ev → defined (get ev "message")) →
  (seeded.2 = true ↔ ∃ ev, ev ∈ events ∧ is_event ev) ∧
  (∀ ev, last (filter is_event events) = Some ev →
         config seeded.1.1 = get ev "message" ∧
         configSubscriptionId seeded.1.1 = get ev "sid") ∧
  (seeded.2 = false → seeded.1.1 = this) ∧
  tunnel seeded.1.1 = tunnel this ∧
  thrown seeded.1.2 = [] ∧
  (∀ this0 ev, is_event ev → nullish (get ev "message") = true →
     ∃ e, on_config_data this0 ev
          = (with_config (get ev "message") (get ev "sid") this0, [Thrown e], false)) ∧
  (∀ err evs, (subscribe_config this (Rejected err) evs).1.1 = this ∧
              (subscribe_config this (Rejected err) evs).2 = Proceeds) ∧
  (∀ v, tunnel this ≠ None → defined v →
        (subscribe_config this (Fulfilled v) (Some events)).2
        = (if seeded.2 then Proceeds else Waits) ∧
        (subscribe_config this (Fulfilled v) (Some events)).1.1 = seeded.1.1) ∧
  (∀ v evs, tunnel this ≠ None → nullish v = true ∨ evs = None →
            ∃ e, defined e ∧ (subscribe_config this (Fulfilled v) evs).2 = Fails e) ∧
  (∀ self reply evs activated e,
     (subscribe_config (with_tunnel (Some self) this) reply evs).2 = Fails e →
     defined e →
     (Activate ∉ (startChild this self reply evs activated).2) ∧
     ∃ before,
       (startChild this self reply evs activated).2
       = before ++ [Logged LError e; TunnelEmit (activation_error e); ProcessExit 6]).
Proof.
  intros is_event seeded Hdefined Hmessages. subst seeded.
  destruct (on_config_events_last this false events Hdefined Hmessages)
    as (out & Hout & Hlast).
  fold is_event in Hlast.
  split; [|split; [|split; [|split; [|split; [|split; [|split; [|split; [|split]]]]]]]].
  - rewrite Hlast.
    destruct (last (filter is_event events)) as [ev|] eqn:Hfound; simpl.
    + split; [intros _ | done]. exists ev.
      apply last_Some_elem_of, list_elem_of_filter in Hfound. tauto.
    + split; [done|]. intros (ev & Hin & Hevent).
      apply last_None in Hfound.
      assert (ev ∈ filter is_event events) as Hfiltered
        by by apply list_elem_of_filter.
      rewrite Hfound in Hfiltered. by apply not_elem_of_nil in Hfiltered.
  - intros ev Hev. by rewrite Hlast, Hev.
  - rewrite Hlast. by destruct (last (filter is_event events)).
  - rewrite Hlast. by destruct (last (filter is_event events)).
  - rewrite Hlast. by destruct (last (filter is_event events)).
  - intros this0 ev Hevent Hmessage. unfold on_config_data.
    assert (nullish ev = false) as ->.
    { unfold is_event in Hevent. apply is_str_true in Hevent.
      by apply (typed_defined ev "event"). }
    unfold is_event in Hevent. rewrite Hevent. simpl. rewrite Hmessage. by eexists.
  - intros err evs. unfold subscribe_config, appcd_call. by destruct (tunnel this).
  - intros v Htunnel Hv. unfold subscribe_config, appcd_call.
    destruct (tunnel this); [|done]. rewrite Hv, Hlast.
    by destruct (last (filter is_event events)).
  - intros v evs Htunnel Hbad. unfold subscribe_config, appcd_call.
    destruct (tunnel this); [|done].
    destruct (nullish v) eqn:Hv; [eexists; split; [|reflexivity]; done|].
    destruct Hbad as [Hbad | ->]; [done|]. eexists; split; [|reflexivity]; done.
  - intros self reply evs activated e Hfails He. unfold startChild.
    destruct (subscribe_config (with_tunnel (Some self) this) reply evs)
      as [[this2 sent] next] eqn:Hsubscribed.
    simpl in Hfails. subst next. unfold activation_failed. rewrite He. simpl.
    split; [|by exists sent].
    assert (Activate ∉ sent) as Hsent.
    { unfold subscribe_config, appcd_call in Hsubscribed. simpl in Hsubscribed.
      destruct reply as [v|err]; [|done].
      destruct (nullish v).
      - injection Hsubscribed as _ <- _.
        intros Hin%list_elem_of_singleton. discriminate.
      - destruct evs as [evs|].
        + by destruct (on_config_events _ false evs) as [[this' out'] []].
        + injection Hsubscribed as _ <- _.
          intros Hin%list_elem_of_singleton. discriminate. }
    intros Hin. apply elem_of_app in Hin as [Hin|Hin]; [done|].
    apply list_elem_of_In in Hin. simpl in Hin. intuition discriminate.
Qed.

Lemma config_events_seed_child_witness :
  (on_config_events (new started_info None) false
     [VObj [("type", VStr "subscribe"); ("sid", VStr "c1")];
      VObj [("type", VStr "event"); ("sid", VStr "c1"); ("message", VNum 5)]]).2
  = true.
Proof.
  destruct (config_events_seed_child (new started_info None)
              [VObj [("type", VStr "subscribe"); ("sid", VStr "c1")];
               VObj [("type", VStr "event"); ("sid", VStr "c1"); ("message", VNum 5)]])
    as (Hseeded & _).
  - repeat constructor.
  - intros ev Hin Hevent. apply list_elem_of_In in Hin. simpl in Hin.
    destruct Hin as [<- | [<- | []]]; [discriminate | reflexivity].
  - apply Hseeded.
    eexists. split; [apply list_elem_of_further, list_elem_of_here | reflexivity].
Defined.

(** X19: the root dispatcher as patched by [startChild].  The original call is
    always made first.  If it is fulfilled, or rejected with anything but a
    [DispatcherError] of status 404, the outcome is its own and nothing goes
    over the tunnel; a rejection with a [DispatcherError] of status 404 is
    answered by forwarding the same path and payload to the parent, whose
    reply becomes the outcome, and before the tunnel exists by the rejection
    [Tunnel not initialized!]. *)
Theorem patched_dispatcher_forwards_unrouted (is_DispatcherError : value → bool)
  (this : t) (path payload : value) (local reply : outcome) :
  let patched := rootDispatcher_call is_DispatcherError this path payload local reply in
  let unrouted err :=
    is_DispatcherError err = true ∧ get err "statusCode" = VNum 404 in
  (∃ rest, patched.2 = DispatcherCall path payload :: rest) ∧
  (∀ v, local = Fulfilled v → patched.1 = Fulfilled v ∧ tunnel_sends patched.2 = []) ∧
  (∀ err, local = Rejected err → ¬ unrouted err →
          patched.1 = Rejected err ∧ tunnel_sends patched.2 = []) ∧
  (∀ err, local = Rejected err → unrouted err → tunnel this ≠ None →
          patched.1 = reply ∧
          tunnel_sends patched.2 = [VObj [("path", path); ("data", payload)]]) ∧
  (∀ err, local = Rejected err → unrouted err → tunnel this = None →
          patched.1 = Rejected (new_Error "Tunnel not initialized!") ∧
          tunnel_sends patched.2 = []).
Proof.
  intros patched unrouted. subst patched. unfold rootDispatcher_call, appcd_call.
  split; [|split; [|split; [|split]]].
  - destruct local as [v|err]; [by eexists|].
    destruct (is_DispatcherError err && is_num (get err "statusCode") 404);
      [destruct (tunnel this)|]; by eexists.
  - by intros v ->.
  - intros err -> Hrouted.
    destruct (is_DispatcherError err) eqn:Hclass; [|done].
    destruct (is_num (get err "statusCode") 404) eqn:Hstatus; [|done].
    destruct Hrouted. split; [done | by apply is_num_true].
  - intros err -> [Hclass Hstatus] Htunnel.
    apply is_num_true in Hstatus. rewrite Hclass, Hstatus. simpl.
    by destruct (tunnel this).
  - intros err -> [Hclass Hstatus] Htunnel.
    apply is_num_true in Hstatus. by rewrite Hclass, Hstatus, Htunnel.
Qed.

Lemma patched_dispatcher_forwards_unrouted_witness :
  let patched :=
    rootDispatcher_call (λ err, is_str (get err "name") "DispatcherError")
      (running_child None) (VStr "/appcd/status") VNull
      (Rejected (VObj [("name", VStr "DispatcherError"); ("statusCode", VNum 404)]))
      (Fulfilled (VNum 1)) in
  patched.1 = Fulfilled (VNum 1) ∧
  tunnel_sends patched.2 = [VObj [("path", VStr "/appcd/status"); ("data", VNull)]].
Proof.
  intros patched.
  pose proof (patched_dispatcher_forwards_unrouted
                (λ err, is_str (get err "name") "DispatcherError")
                (running_child None) (VStr "/appcd/status") VNull
                (Rejected (VObj [("name", VStr "DispatcherError");
                                 ("statusCode", VNum 404)]))
                (Fulfilled (VNum 1))) as (_ & _ & _ & Hforward & _).
  apply (Hforward _ eq_refl (conj eq_refl eq_refl)). discriminate.
Defined.

(** ** The order of the forwarded items *)

(** X20: the relay of the parent forwards the data items in the order the
    stream emits them, each one as it is, whatever [end] and [error] events
    come in between, when no item is [null] or [undefined] and no
    registration of the stream is refused: the items are a subsequence of the
    replies (which hold at most one message more, the [fin]). *)
Theorem parent_relay_keeps_order (puts : stream → string → put) (this : t)
  (r : stream) (evs : list stream_event) :
  Forall defined (data_items evs) →
  never_refuses puts →
  data_items evs `sublist_of` replies (parent_relay_run puts this (new_relay r) evs).2.
Proof. apply parent_relay_run_order. Qed.

Lemma parent_relay_keeps_order_witness :
  [subscribe_msg; event_msg]
    `sublist_of` replies (parent_relay_run plain_puts starting_parent (new_relay 7%nat)
                            [Data subscribe_msg; Error boom; Data event_msg; End_]).2.
Proof.
  apply (parent_relay_keeps_order plain_puts starting_parent 7%nat
           [Data subscribe_msg; Error boom; Data event_msg; End_]).
  - repeat constructor.
  - intros p k. discriminate.
Defined.
